(** * kz-io/patterns: the subscription and dispatch engine

    A shallow embedding of the observer channel ([TBaseObservable],
    [TAbstractObserver], [TSubscription]), of the mediator
    ([TBaseMediator], [TAbstractParticipant]) and of
    [AbstractDisposable], followed by the properties of the
    specification that concern them.

    Objects are references ([ObjId]); the arrays that the source
    shares between an emitter and the subscriptions it hands out live
    in a heap, so that a [splice] done through one subscription is
    seen by every other holder of the same array.  Methods are
    computations of a small state-and-exception monad.  The callbacks
    that a user supplies ([next], [error], [complete] of a receiver,
    [onDispose] of a disposable) are parameters. *)

From stdpp Require Import base option list gmap strings relations.
From Stdlib Require Import Lia.

Set Default Proof Using "Type".

(** ** Outcomes of a call *)

(** A thrown JavaScript value. *)
Definition Exn := string.

(** A call returns, throws, or is still running when the fuel of the
    model is used up. *)
Inductive Outcome (St A : Type) : Type :=
| Ret (a : A) (s : St)
| Exc (e : Exn) (s : St)
| Timeout.
Arguments Ret {St A} a s.
Arguments Exc {St A} e s.
Arguments Timeout {St A}.

Definition Comp (St A : Type) : Type := St -> Outcome St A.

Definition ret {St A} (a : A) : Comp St A := fun s => Ret a s.

Definition bind {St A B} (m : Comp St A) (k : A -> Comp St B) : Comp St B :=
  fun s =>
    match m s with
    | Ret a s' => k a s'
    | Exc e s' => Exc e s'
    | Timeout => Timeout
    end.

Definition throw {St A} (e : Exn) : Comp St A := fun s => Exc e s.

Definition modify {St} (f : St -> St) : Comp St unit := fun s => Ret tt (f s).

Definition gets {St A} (f : St -> A) : Comp St A := fun s => Ret (f s) s.

(** [try { body } finally { fin }], for a [fin] that is a plain
    assignment. *)
Definition try_finally {St A} (body : Comp St A) (fin : St -> St) : Comp St A :=
  fun s =>
    match body s with
    | Ret a s' => Ret a (fin s')
    | Exc e s' => Exc e (fin s')
    | Timeout => Timeout
    end.

(** The state in which a call ended, when it ended. *)
Definition final {St A} (o : Outcome St A) : option St :=
  match o with
  | Ret _ s => Some s
  | Exc _ s => Some s
  | Timeout => None
  end.

Declare Scope comp_scope.
Delimit Scope comp_scope with comp.
Notation "x <- m ;; k" := (bind m (fun x => k))
  (at level 100, m at next level, right associativity) : comp_scope.
Notation "m ;;; k" := (bind m (fun _ => k))
  (at level 100, right associativity) : comp_scope.
Open Scope comp_scope.

(** ** JavaScript arrays of object references *)

Definition ObjId := nat.
Definition Topic := string.

(** A [Symbol(...)]: two symbols are equal only when they come from the
    same call of [Symbol]. *)
Definition symbol := nat.

(** [Array.prototype.indexOf]: the first index holding [x]; [None] is
    the source's [-1]. *)
Fixpoint indexOf `{EqDecision A} (x : A) (l : list A) : option nat :=
  match l with
  | [] => None
  | y :: l' => if decide (y = x) then Some 0 else S <$> indexOf x l'
  end.

(** [Array.prototype.includes]. *)
Definition includes `{EqDecision A} (x : A) (l : list A) : bool :=
  bool_decide (is_Some (indexOf x l)).

(** [array.splice(index, 1)]. *)
Fixpoint splice1 {A} (index : nat) (l : list A) : list A :=
  match l, index with
  | [], _ => []
  | _ :: l', 0 => l'
  | x :: l', S index' => x :: splice1 index' l'
  end.

(** [array.push(x)]. *)
Definition push {A} (x : A) (l : list A) : list A := l ++ [x].

(** Number of entries of an array equal to [x]. *)
Definition occurrences `{EqDecision A} (x : A) (l : list A) : nat :=
  length (filter (fun y => y = x) l).

(** ** The heap *)

(** The two array-valued fields of the source: [observers] of an emitter
    and [mediators] of a participant. *)
Inductive ArrRef : Type :=
| ObserversOf (emitter : ObjId)
| MediatorsOf (participant : ObjId).

#[global] Instance ArrRef_eq_dec : EqDecision ArrRef.
Proof. solve_decision. Defined.

(** An [IDisposable] built by the source: a [TSubscription], or the
    object literal that [TBaseMediator.subscribe] returns for a
    participant that was already registered. *)
Inductive Disposable : Type :=
| TSubscription (observers : ArrRef) (observer : ObjId)
| Composite (localSubscription disposable : Disposable).

Record Heap : Type := mkHeap {
  observers : gmap ObjId (list ObjId);
  mediators : gmap ObjId (list ObjId);
  (** the protected field [subscription] of a [TAbstractObserver] *)
  subscription : gmap ObjId Disposable;
}.

Definition empty_heap : Heap := mkHeap ∅ ∅ ∅.

(** Reading and writing an array.  An emitter that never registered
    anyone has the empty array it was constructed with. *)
Definition arr (h : Heap) (a : ArrRef) : list ObjId :=
  match a with
  | ObserversOf e => default [] (observers h !! e)
  | MediatorsOf p => default [] (mediators h !! p)
  end.

Definition set_arr (a : ArrRef) (l : list ObjId) (h : Heap) : Heap :=
  match a with
  | ObserversOf e => mkHeap (<[e := l]> (observers h)) (mediators h) (subscription h)
  | MediatorsOf p => mkHeap (observers h) (<[p := l]> (mediators h)) (subscription h)
  end.

Definition set_subscription (o : ObjId) (d : Disposable) (h : Heap) : Heap :=
  mkHeap (observers h) (mediators h) (<[o := d]> (subscription h)).

(** ** TSubscription *)

(** [get isDisposed()]: [!observers.length]. *)
Definition TSubscription_isDisposed (observers : ArrRef) (observer : ObjId)
    (h : Heap) : bool :=
  negb (bool_decide (length (arr h observers) ≠ 0)).

(** [dispose()]: [indexOf] then [splice] when the index is not negative. *)
Definition TSubscription_dispose (observers : ArrRef) (observer : ObjId)
    : Comp Heap unit :=
  fun h =>
    match indexOf observer (arr h observers) with
    | Some index => Ret tt (set_arr observers (splice1 index (arr h observers)) h)
    | None => Ret tt h
    end.

(** The two members of an [IDisposable], for both shapes the source
    builds.  The getter of the object literal is
    [localSubscription.isDisposed && disposable.isDisposed]. *)
Fixpoint isDisposed (d : Disposable) (h : Heap) : bool :=
  match d with
  | TSubscription a x => TSubscription_isDisposed a x h
  | Composite l d' => isDisposed l h && isDisposed d' h
  end.

Fixpoint dispose (d : Disposable) : Comp Heap unit :=
  match d with
  | TSubscription a x => TSubscription_dispose a x
  | Composite l d' => dispose l ;;; dispose d'
  end.

(** ** TAbstractObserver *)

(** [unsubscribe()]: disposes the tracked subscription when there is
    one. *)
Definition TAbstractObserver_unsubscribe (this : ObjId) : Comp Heap unit :=
  fun h =>
    match subscription h !! this with
    | Some d => dispose d h
    | None => Ret tt h
    end.

(** The default [complete()]. *)
Definition TAbstractObserver_complete (this : ObjId) : Comp Heap unit :=
  TAbstractObserver_unsubscribe this.

(** ** AbstractDisposable *)

(** An instance of a subclass: the protected flag and the fields the
    subclass adds. *)
Record DisposableObj (F : Type) : Type := mkDisposableObj {
  _isDisposed : bool;
  fields : F;
}.
Arguments mkDisposableObj {F} _ _.
Arguments _isDisposed {F} _.
Arguments fields {F} _.

(** The instance together with the number of times its [onDispose]
    hook was entered. *)
Record DisposableState (F : Type) : Type := mkDisposableState {
  instance : DisposableObj F;
  onDispose_calls : nat;
}.
Arguments mkDisposableState {F} _ _.
Arguments instance {F} _.
Arguments onDispose_calls {F} _.

(** [get isDisposed()]. *)
Definition AbstractDisposable_isDisposed {F} (s : DisposableState F) : bool :=
  _isDisposed (instance s).

(** The call [this.onDispose()], for the hook [onDispose] of the
    subclass. *)
Definition call_onDispose {F} (onDispose : Comp (DisposableObj F) unit)
    : Comp (DisposableState F) unit :=
  fun s =>
    let n := S (onDispose_calls s) in
    match onDispose (instance s) with
    | Ret _ o => Ret tt (mkDisposableState o n)
    | Exc e o => Exc e (mkDisposableState o n)
    | Timeout => Timeout
    end.

Definition mark_disposed {F} (s : DisposableState F) : DisposableState F :=
  mkDisposableState (mkDisposableObj true (fields (instance s))) (onDispose_calls s).

(** [dispose()]: returns at once when disposed, else runs the hook and
    sets the flag in the [finally] block. *)
Definition AbstractDisposable_dispose {F} (onDispose : Comp (DisposableObj F) unit)
    : Comp (DisposableState F) unit :=
  fun s =>
    if AbstractDisposable_isDisposed s then Ret tt s
    else try_finally (call_onDispose onDispose) mark_disposed s.

(** ** Deliveries *)

(** What an emitter does to the outside: the calls it makes on
    receivers, and the calls of [next] a participant makes on its
    mediators. *)
Inductive Event (T : Type) : Type :=
| CallNext (receiver : ObjId) (value : T)
| CallError (receiver : ObjId) (error : Exn)
| CallComplete (receiver : ObjId)
| CallIntake (mediator : ObjId) (sender : symbol) (value : T).
Arguments CallNext {T} receiver value.
Arguments CallError {T} receiver error.
Arguments CallComplete {T} receiver.
Arguments CallIntake {T} mediator sender value.

Record State (T : Type) : Type := mkState {
  heap : Heap;
  trace : list (Event T);
}.
Arguments mkState {T} heap trace.
Arguments heap {T} _.
Arguments trace {T} _.

(** The methods a receiver implements itself.  They act on the heap:
    they may dispose subscriptions, register receivers, or throw. *)
Record Callbacks (T : Type) : Type := mkCallbacks {
  on_next : ObjId -> T -> Comp Heap unit;
  on_error : ObjId -> Exn -> Comp Heap unit;
  on_complete : ObjId -> Comp Heap unit;
}.
Arguments mkCallbacks {T} _ _ _.
Arguments on_next {T} _ _ _.
Arguments on_error {T} _ _ _.
Arguments on_complete {T} _ _.

(** A heap computation run inside an emitter. *)
Definition lift {T A} (m : Comp Heap A) : Comp (State T) A :=
  fun s =>
    match m (heap s) with
    | Ret a h => Ret a (mkState h (trace s))
    | Exc e h => Exc e (mkState h (trace s))
    | Timeout => Timeout
    end.

(** A call is entered. *)
Definition record {T} (ev : Event T) : Comp (State T) unit :=
  fun s => Ret tt (mkState (heap s) (trace s ++ [ev])).

(** One call of a receiver's method: the call is recorded, then the
    callback runs; what it throws is not caught. *)
Definition invoke {T} (ev : Event T) (callback : Comp Heap unit)
    : Comp (State T) unit :=
  fun s =>
    let tr := trace s ++ [ev] in
    match callback (heap s) with
    | Ret _ h => Ret tt (mkState h tr)
    | Exc e h => Exc e (mkState h tr)
    | Timeout => Timeout
    end.

(** [for (const x of array) body(x)] on a live array: the iterator
    keeps an index and compares it with the current length before each
    step.  One unit of fuel is spent per iteration. *)
Fixpoint for_of {T} (fuel : nat) (a : ArrRef) (body : ObjId -> Comp (State T) unit)
    (index : nat) : Comp (State T) unit :=
  fun s =>
    match arr (heap s) a !! index with
    | None => Ret tt s
    | Some x =>
        match fuel with
        | 0 => Timeout
        | S fuel' =>
            match body x s with
            | Ret _ s' => for_of fuel' a body (S index) s'
            | Exc e s' => Exc e s'
            | Timeout => Timeout
            end
        end
    end.

(** [array.forEach(callbackfn)]: the length is read once, before the
    first call; an index that is no longer in the array when its turn
    comes is passed over. *)
Fixpoint forEach_from {T} (remaining k : nat) (a : ArrRef)
    (callbackfn : ObjId -> Comp (State T) unit) : Comp (State T) unit :=
  match remaining with
  | 0 => ret tt
  | S n =>
      fun s =>
        match arr (heap s) a !! k with
        | Some x => (callbackfn x ;;; forEach_from n (S k) a callbackfn) s
        | None => forEach_from n (S k) a callbackfn s
        end
  end.

Definition forEach {T} (a : ArrRef) (callbackfn : ObjId -> Comp (State T) unit)
    : Comp (State T) unit :=
  fun s => forEach_from (length (arr (heap s) a)) 0 a callbackfn s.

(** ** TBaseObservable *)

(** [subscribe(observer)]: [push], then a new [TSubscription] over the
    same array. *)
Definition TBaseObservable_subscribe (this observer : ObjId) : Comp Heap Disposable :=
  fun h =>
    let a := ObserversOf this in
    Ret (TSubscription a observer) (set_arr a (push observer (arr h a)) h).

(** [TAbstractObserver.subscribe(observable)]:
    [this.subscription = observable.subscribe(this)], for the
    [subscribe] method of the observable it is given. *)
Definition TAbstractObserver_subscribe
    (subscribe : ObjId -> ObjId -> Comp Heap Disposable)
    (this observable : ObjId) : Comp Heap Disposable :=
  d <- subscribe observable this ;;
  modify (set_subscription this d) ;;;
  ret d.

Section Observable.
Context {T : Type} (cb : Callbacks T).

Definition call_next (observer : ObjId) (value : T) : Comp (State T) unit :=
  invoke (CallNext observer value) (on_next cb observer value).

Definition call_error (observer : ObjId) (error : Exn) : Comp (State T) unit :=
  invoke (CallError observer error) (on_error cb observer error).

Definition call_complete (observer : ObjId) : Comp (State T) unit :=
  invoke (CallComplete observer) (on_complete cb observer).

(** [publish(value)]. *)
Definition TBaseObservable_publish (fuel : nat) (this : ObjId) (value : T)
    : Comp (State T) unit :=
  for_of fuel (ObserversOf this) (fun observer => call_next observer value) 0.

(** [onError(error)]. *)
Definition TBaseObservable_onError (fuel : nat) (this : ObjId) (error : Exn)
    : Comp (State T) unit :=
  for_of fuel (ObserversOf this) (fun observer => call_error observer error) 0.

(** [complete()]: the loop, then [observers.length = 0]. *)
Definition TBaseObservable_complete (fuel : nat) (this : ObjId)
    : Comp (State T) unit :=
  for_of fuel (ObserversOf this) call_complete 0 ;;;
  lift (modify (set_arr (ObserversOf this) [])).

End Observable.

(** ** Receivers as the mediator sees them *)

(** The classes of the repository whose instances reach a mediator.
    The mediator tells them apart by the members they carry; the table
    below lists, for each class, the members it tests.

    - [CObserver]: a [TObserver] without topics, such as a subclass of
      [TAbstractObserver];
    - [CSubscriber topics]: a [TSubscriber], with its [topics];
    - [CParticipant topics participantId]: a [TAbstractParticipant];
    - [CMediator]: a [TBaseMediator], whose [topics] field is [[]]. *)
Inductive Class : Type :=
| CObserver
| CSubscriber (topics : list Topic)
| CParticipant (topics : list Topic) (participantId : symbol)
| CMediator.

(** The member [topics], when the object has one (['topics' in x]). *)
Definition topics_of (c : Class) : option (list Topic) :=
  match c with
  | CObserver => None
  | CSubscriber topics => Some topics
  | CParticipant topics _ => Some topics
  | CMediator => Some []
  end.

(** The member [participantId], when the object has one. *)
Definition participantId_of (c : Class) : option symbol :=
  match c with
  | CParticipant _ participantId => Some participantId
  | _ => None
  end.

(** ['subscribe' in x && 'publish' in x].  A mediator inherits
    [publish] from [TBasePublisher]; observers and subscribers have
    [subscribe] only. *)
Definition has_subscribe_and_publish (c : Class) : bool :=
  match c with
  | CParticipant _ _ | CMediator => true
  | CObserver | CSubscriber _ => false
  end.

Section Mediator.
Context {Payload : Type} (cls : ObjId -> Class) (cb : Callbacks (Topic * Payload)).

(** The function given to [observers.forEach] in [TBaseMediator.next]. *)
Definition route (sender : symbol) (topic : Topic) (message : Payload)
    (observer : ObjId) : Comp (State (Topic * Payload)) unit :=
  match topics_of (cls observer) with
  | None => call_next cb observer (topic, message)
  | Some topics =>
      match participantId_of (cls observer) with
      | None =>
          if includes topic topics
          then call_next cb observer (topic, message)
          else ret tt
      | Some participantId =>
          if includes topic topics && negb (bool_decide (participantId = sender))
          then call_next cb observer (topic, message)
          else ret tt
      end
  end.

(** [TBaseMediator.next([sender, topic, message])]. *)
Definition TBaseMediator_next (this : ObjId) (value : symbol * Topic * Payload)
    : Comp (State (Topic * Payload)) unit :=
  let '(sender, topic, message) := value in
  forEach (ObserversOf this) (route sender topic message).

(** [TBaseMediator.subscribe(observer)] and
    [TAbstractParticipant.subscribe(mediator)] call each other.  The
    call [participant.subscribe(this)] of the mediator goes to the
    [subscribe] of the receiver's class: of the classes that carry
    both [subscribe] and [publish], a mediator has
    [TBaseMediator.subscribe] and a participant
    [TAbstractParticipant.subscribe].  Each call spends one unit of
    fuel. *)
Fixpoint TBaseMediator_subscribe (fuel : nat) (this observer : ObjId)
    : Comp Heap Disposable :=
  match fuel with
  | 0 => fun _ => Timeout
  | S fuel' =>
      let participant_subscribe_this : Comp Heap Disposable :=
        match cls observer with
        | CMediator => TBaseMediator_subscribe fuel' observer this
        | _ => TAbstractParticipant_subscribe fuel' observer this
        end in
      fun h =>
        let a := ObserversOf this in
        if negb (includes observer (arr h a)) then
          let h1 := set_arr a (push observer (arr h a)) h in
          if has_subscribe_and_publish (cls observer) then
            participant_subscribe_this h1
          else Ret (TSubscription a observer) h1
        else
          if has_subscribe_and_publish (cls observer) then
            (disposable <- participant_subscribe_this ;;
             let localSubscription := TSubscription a observer in
             ret (Composite localSubscription disposable)) h
          else Ret (TSubscription a observer) h
  end
with TAbstractParticipant_subscribe (fuel : nat) (this mediator : ObjId)
    : Comp Heap Disposable :=
  match fuel with
  | 0 => fun _ => Timeout
  | S fuel' =>
      fun h =>
        let a := MediatorsOf this in
        if negb (includes mediator (arr h a)) then
          (TBaseMediator_subscribe fuel' mediator this ;;;
           ret (TSubscription a mediator))
            (set_arr a (push mediator (arr h a)) h)
        else Ret (TSubscription a mediator) h
  end.

(** [TAbstractParticipant.publish(message)]: every tracked mediator gets
    [next([participantId, ...message])].  Only a participant has this
    method; on any other object the call is taken to do nothing. *)
Definition TAbstractParticipant_publish (this : ObjId) (message : Topic * Payload)
    : Comp (State (Topic * Payload)) unit :=
  match participantId_of (cls this) with
  | Some participantId =>
      forEach (MediatorsOf this) (fun mediator =>
        record (CallIntake mediator participantId message) ;;;
        TBaseMediator_next mediator (participantId, message.1, message.2))
  | None => ret tt
  end.

End Mediator.

(** ** Vocabulary of the specification *)

(** A callback that returns normally and leaves the array [a] as it
    found it. *)
Definition quiet_on {A} (a : ArrRef) (callback : Comp Heap A) : Prop :=
  forall h, exists r h', callback h = Ret r h' /\ arr h' a = arr h a.

(** A callback that, however it ends, does not put [x] (back) into the
    array [a]. *)
Definition keeps_out {A} (a : ArrRef) (x : ObjId) (callback : Comp Heap A) : Prop :=
  forall h h', final (callback h) = Some h' -> x ∉ arr h a -> x ∉ arr h' a.

(** The routing rule of the specification, by kind of receiver: no
    topic filter, topic filter without identity, topic filter with
    identity. *)
Definition eligible (cls : ObjId -> Class) (sender : symbol) (topic : Topic)
    (receiver : ObjId) : Prop :=
  match topics_of (cls receiver), participantId_of (cls receiver) with
  | None, _ => True
  | Some filter, None => topic ∈ filter
  | Some filter, Some identity => topic ∈ filter /\ identity <> sender
  end.

#[global] Instance eligible_dec cls sender topic receiver :
  Decision (eligible cls sender topic receiver).
Proof.
  unfold eligible.
  destruct (topics_of (cls receiver)), (participantId_of (cls receiver)); apply _.
Defined.

(** Number of calls of [next] on [receiver] in a trace. *)
Fixpoint next_calls {T} (receiver : ObjId) (tr : list (Event T)) : nat :=
  match tr with
  | [] => 0
  | CallNext o _ :: tr' =>
      (if decide (o = receiver) then 1 else 0) + next_calls receiver tr'
  | _ :: tr' => next_calls receiver tr'
  end.

(** Number of calls of [next] that participants made on [mediator]. *)
Fixpoint intake_calls {T} (mediator : ObjId) (tr : list (Event T)) : nat :=
  match tr with
  | [] => 0
  | CallIntake m _ _ :: tr' =>
      (if decide (m = mediator) then 1 else 0) + intake_calls mediator tr'
  | _ :: tr' => intake_calls mediator tr'
  end.

(** A [for...of] pass over [a] that started in [s0] stands at [index] in
    state [s]: every call made so far has returned. *)
Inductive for_of_reaches {T} (a : ArrRef) (body : ObjId -> Comp (State T) unit)
    (s0 : State T) : nat -> State T -> Prop :=
| for_of_start : for_of_reaches a body s0 0 s0
| for_of_next index s x s' :
    for_of_reaches a body s0 index s ->
    arr (heap s) a !! index = Some x ->
    body x s = Ret tt s' ->
    for_of_reaches a body s0 (S index) s'.

(** The same for a [forEach] pass, which also steps over an index that
    has left the array. *)
Inductive forEach_reaches {T} (a : ArrRef) (callbackfn : ObjId -> Comp (State T) unit)
    (s0 : State T) : nat -> State T -> Prop :=
| forEach_start : forEach_reaches a callbackfn s0 0 s0
| forEach_call k s x s' :
    forEach_reaches a callbackfn s0 k s ->
    arr (heap s) a !! k = Some x ->
    callbackfn x s = Ret tt s' ->
    forEach_reaches a callbackfn s0 (S k) s'
| forEach_hole k s :
    forEach_reaches a callbackfn s0 k s ->
    arr (heap s) a !! k = None ->
    forEach_reaches a callbackfn s0 (S k) s.

(** Delivery over a snapshot: [body] is called once on every entry of
    the list [xs], in order, whatever the calls do to the heap. *)
Fixpoint each {T} (body : ObjId -> Comp (State T) unit) (xs : list ObjId)
    : Comp (State T) unit :=
  match xs with
  | [] => ret tt
  | x :: xs' => body x ;;; each body xs'
  end.

(** A loop body that, called on [x], returns and leaves the array [a]
    as it found it. *)
Definition steady {T} (a : ArrRef) (body : ObjId -> Comp (State T) unit)
    (x : ObjId) : Prop :=
  forall s, exists s', body x s = Ret tt s' /\ arr (heap s') a = arr (heap s) a.

(** Registration with the duplicate check that [TBaseMediator] and
    [TAbstractParticipant] make: [x] is pushed on [a] unless [a]
    includes it. *)
Definition register (a : ArrRef) (x : ObjId) (h : Heap) : Heap :=
  if includes x (arr h a) then h else set_arr a (push x (arr h a)) h.

(** No array of the heap holds a reference twice. *)
Definition duplicate_free (h : Heap) : Prop :=
  forall a x, occurrences x (arr h a) <= 1.

(** ** Receivers used in the examples *)

(** Receivers that do nothing. *)
Definition silent {T} : Callbacks T :=
  mkCallbacks (fun _ _ => ret tt) (fun _ _ => ret tt) (fun _ => ret tt).

(** Receivers whose [next] does nothing, except that of [r], which
    unsubscribes [r]. *)
Definition leaves_on_next {T} (r : ObjId) : Callbacks T :=
  mkCallbacks
    (fun o _ => if decide (o = r) then TAbstractObserver_unsubscribe o else ret tt)
    (fun _ _ => ret tt)
    (fun _ => ret tt).

(** Subclasses of [TAbstractObserver] that keep the inherited
    [complete()]. *)
Definition default_complete {T} : Callbacks T :=
  mkCallbacks (fun _ _ => ret tt) (fun _ _ => ret tt) TAbstractObserver_complete.

(** Receivers whose [next] does nothing, except that of [r], which
    throws [e]. *)
Definition throws_on_next {T} (r : ObjId) (e : Exn) : Callbacks T :=
  mkCallbacks
    (fun o _ => if decide (o = r) then throw e else ret tt)
    (fun _ _ => ret tt)
    (fun _ => ret tt).

(** An emitter [0] on an empty heap to which the observers [1], [2]
    and [3] subscribed themselves, in this order. *)
Definition three_observers : Comp Heap unit :=
  TAbstractObserver_subscribe TBaseObservable_subscribe 1 0 ;;;
  TAbstractObserver_subscribe TBaseObservable_subscribe 2 0 ;;;
  TAbstractObserver_subscribe TBaseObservable_subscribe 3 0 ;;;
  ret tt.

(** A mediator [0] with a plain observer [1], a subscriber [2] to topic
    A, two participants [3] and [4] on topic A, and a second mediator
    [5]. *)
Definition cast : ObjId -> Class :=
  fun o =>
    match o with
    | 0 | 5 => CMediator
    | 2 => CSubscriber ["A"]
    | 3 => CParticipant ["A"] 30
    | 4 => CParticipant ["A"] 40
    | _ => CObserver
    end.

(** The heap that a sequence of calls builds from the empty heap. *)
Definition after {A} (m : Comp Heap A) : Heap :=
  default empty_heap (final (m empty_heap)).

(** The mediator [0] after [1], [2], [3] and [4] subscribed to it. *)
Definition four_receivers : Comp Heap unit :=
  TBaseMediator_subscribe cast 4 0 1 ;;;
  TBaseMediator_subscribe cast 4 0 2 ;;;
  TBaseMediator_subscribe cast 4 0 3 ;;;
  TBaseMediator_subscribe cast 4 0 4 ;;;
  ret tt.

(** The same receiver [1] subscribed twice to the observable [0]; the
    subscription of the first call is returned. *)
Definition subscribed_twice : Comp Heap Disposable :=
  s <- TBaseObservable_subscribe 0 1 ;;
  TBaseObservable_subscribe 0 1 ;;;
  ret s.

(** A disposable whose [onDispose] throws. *)
Definition failing_hook : Comp (DisposableObj nat) unit := throw "dispose failed".

Definition fresh_disposable : DisposableState nat :=
  mkDisposableState (mkDisposableObj false 0) 0.

(** ** The scenarios of the repository's tests *)

(** [observer/module.test.ts], "TAbstractObserver": three trackers
    subscribe themselves to a reporter; the first, then the second
    unsubscribe; the third completes.  The result lists what the three
    subscriptions report after the subscriptions and after each of the
    three steps. *)
Definition observer_test_flags : Comp Heap (list (list bool)) :=
  sub1 <- TAbstractObserver_subscribe TBaseObservable_subscribe 1 0 ;;
  sub2 <- TAbstractObserver_subscribe TBaseObservable_subscribe 2 0 ;;
  sub3 <- TAbstractObserver_subscribe TBaseObservable_subscribe 3 0 ;;
  let flags := gets (fun h => [isDisposed sub1 h; isDisposed sub2 h; isDisposed sub3 h]) in
  f0 <- flags ;;
  TAbstractObserver_unsubscribe 1 ;;;
  f1 <- flags ;;
  TAbstractObserver_unsubscribe 2 ;;;
  f2 <- flags ;;
  TAbstractObserver_complete 3 ;;;
  f3 <- flags ;;
  ret [f0; f1; f2; f3].

(** The same steps with a [publish] after each of them; what matters
    is who is called. *)
Definition observer_test_deliveries : Comp (State nat) unit :=
  lift three_observers ;;;
  lift (TAbstractObserver_unsubscribe 1) ;;;
  TBaseObservable_publish silent 10 0 1 ;;;
  lift (TAbstractObserver_unsubscribe 2) ;;;
  TBaseObservable_publish silent 10 0 2 ;;;
  lift (TAbstractObserver_complete 3) ;;;
  TBaseObservable_publish silent 10 0 3.

(** [mediator/module.test.ts]: a mediator [0], participants [1] (topics
    A and B) and [2] (topic A), subscribers [3], [4], [5] (topics A, B
    and C) and [6] (topic A), and an observer [7]. *)
Definition test_cast : ObjId -> Class :=
  fun o =>
    match o with
    | 0 => CMediator
    | 1 => CParticipant ["TopicA"; "TopicB"] 101
    | 2 => CParticipant ["TopicA"] 102
    | 3 | 4 | 5 => CSubscriber ["TopicA"; "TopicB"; "TopicC"]
    | 6 => CSubscriber ["TopicA"]
    | _ => CObserver
    end.

(** "module test": the registrations, then participant [1] publishes on
    topic A and participant [2] on topic B. *)
Definition mediator_test_deliveries : Comp (State (Topic * nat)) unit :=
  lift (TBaseMediator_subscribe test_cast 4 0 1 ;;;
        TAbstractParticipant_subscribe test_cast 4 2 0 ;;;
        TBaseMediator_subscribe test_cast 4 0 3 ;;;
        TBaseMediator_subscribe test_cast 4 0 4 ;;;
        TBaseMediator_subscribe test_cast 4 0 5 ;;;
        TBaseMediator_subscribe test_cast 4 0 6 ;;;
        TBaseMediator_subscribe test_cast 4 0 7) ;;;
  TAbstractParticipant_publish test_cast silent 1 ("TopicA", 1) ;;;
  TAbstractParticipant_publish test_cast silent 2 ("TopicB", 2).

(** "should not duplicate participants": the three values of
    [otherSubScription.isDisposed] that the test asserts. *)
Definition mediator_test_flags : Comp Heap (list bool) :=
  TBaseMediator_subscribe test_cast 4 0 1 ;;;
  other <- TBaseMediator_subscribe test_cast 4 0 1 ;;
  TAbstractObserver_subscribe (TBaseMediator_subscribe test_cast 4) 7 0 ;;;
  TBaseMediator_subscribe test_cast 4 0 7 ;;;
  b1 <- gets (isDisposed other) ;;
  dispose other ;;;
  b2 <- gets (isDisposed other) ;;
  TAbstractObserver_unsubscribe 7 ;;;
  b3 <- gets (isDisposed other) ;;
  ret [b1; b2; b3].

(** ** dispose, using and the exception of a disposed object *)

(** [try { body } finally { fin }] for a [fin] that is itself a
    computation: what [fin] throws replaces the outcome of [body]. *)
Definition try_finally_do {St A B} (body : Comp St A) (fin : Comp St B) : Comp St A :=
  fun s =>
    match body s with
    | Ret a s1 =>
        match fin s1 with
        | Ret _ s2 => Ret a s2
        | Exc e s2 => Exc e s2
        | Timeout => Timeout
        end
    | Exc e s1 =>
        match fin s1 with
        | Ret _ s2 => Exc e s2
        | Exc e' s2 => Exc e' s2
        | Timeout => Timeout
        end
    | Timeout => Timeout
    end.

(** [array.forEach(f)] on an array that was just built and that nobody
    else holds, such as [Object.keys(o)]. *)
Fixpoint forEach_fresh {St K} (xs : list K) (f : K -> Comp St unit) : Comp St unit :=
  match xs with
  | [] => ret tt
  | x :: xs' => f x ;;; forEach_fresh xs' f
  end.

Section Disposal.
Context {St : Type}.

(** Whether a thrown value is truthy; every [Error] object is. *)
Context (truthy : Exn -> bool).

(** [disposeInternalOne(disposable)], for the [dispose()] method of the
    disposable: what the method throws is returned, [None] is
    [undefined]. *)
Definition disposeInternalOne (disposable : Comp St unit) : Comp St (option Exn) :=
  fun s =>
    match disposable s with
    | Ret _ s' => Ret None s'
    | Exc err s' => Ret (Some err) s'
    | Timeout => Timeout
    end.

(** The loop of [disposeInternal], from some index on, with the
    exceptions collected so far: [if (ex) exceptions.push(ex)]. *)
Fixpoint disposeInternal_from (disposables : list (Comp St unit))
    (exceptions : list Exn) : Comp St (list Exn) :=
  match disposables with
  | [] => ret exceptions
  | disposable :: rest =>
      ex <- disposeInternalOne disposable ;;
      disposeInternal_from rest
        match ex with
        | Some e => if truthy e then push e exceptions else exceptions
        | None => exceptions
        end
  end.

(** [disposeInternal(disposables)]:
    [exceptions.length ? exceptions : undefined]. *)
Definition disposeInternal (disposables : list (Comp St unit))
    : Comp St (option (list Exn)) :=
  exceptions <- disposeInternal_from disposables [] ;;
  ret (if bool_decide (length exceptions <> 0) then Some exceptions else None).

(** The function [dispose(...disposables)] of [dispose.ts]. *)
Definition dispose_disposables (disposables : list (Comp St unit))
    : Comp St (option (list Exn)) :=
  disposeInternal disposables.

(** [using(disposable, callback)]. *)
Definition using_disposable {R} (disposable : Comp St unit) (callback : Comp St R)
    : Comp St R :=
  try_finally_do callback (dispose_disposables [disposable]).

End Disposal.

(** The exceptions of two batches put together; [None] is the
    [undefined] that stands for no exception. *)
Definition merge_exceptions (r1 r2 : option (list Exn)) : option (list Exn) :=
  match default [] r1 ++ default [] r2 with
  | [] => None
  | exceptions => Some exceptions
  end.

(** A JavaScript string is truthy when it is not empty. *)
Definition truthy_string (s : string) : bool := negb (String.eqb s "").

Definition DEFAULT_MESSAGE : string :=
  "An operation was attempted on a disposed object.".

(** [createMessageFromData(data)], for the [objectName] of the data. *)
Definition createMessageFromData (objectName : option string) : string :=
  match objectName with
  | Some name =>
      if truthy_string name
      then "An operation was attempted on a disposed object, " +:+ name +:+ "."
      else DEFAULT_MESSAGE
  | None => DEFAULT_MESSAGE
  end.

(** The first argument of the constructor: a message or the data. *)
Inductive MessageOrData : Type :=
| IsMessage (message : string)
| IsData (objectName : option string).

(** An [ObjectDisposedException]: what its constructor hands to the
    base class, and its code. *)
Record ObjectDisposedException : Type := mkObjectDisposedException {
  exception_message : string;
  exception_objectName : option string;
  exception_code : nat;
}.

(** The constructor; an argument that is left out is [None]. *)
Definition new_ObjectDisposedException (messageOrData : option MessageOrData)
    (data : option (option string)) : ObjectDisposedException :=
  let messageOrData := default (IsMessage DEFAULT_MESSAGE) messageOrData in
  let data := default None data in
  let '(message, data) :=
    match messageOrData with
    | IsMessage m => (m, data)
    | IsData d => (createMessageFromData d, d)
    end in
  let message := if truthy_string message then message else DEFAULT_MESSAGE in
  mkObjectDisposedException message data 64.

(** [assertNotDisposed(disposable, message)], for the [isDisposed] and
    the [constructor.name] of the disposable.  The exception thrown is
    stood for by its message. *)
Definition assertNotDisposed {St} (isDisposed : bool) (objectName : string)
    (message : option string) : Comp St unit :=
  if isDisposed then
    let exception :=
      match message with
      | Some m =>
          if truthy_string m
          then new_ObjectDisposedException (Some (IsMessage m)) (Some (Some objectName))
          else new_ObjectDisposedException (Some (IsData (Some objectName))) None
      | None => new_ObjectDisposedException (Some (IsData (Some objectName))) None
      end in
    throw (exception_message exception)
  else ret tt.

(** ** DisposablePool *)

(** The fields a [DisposablePool] adds: [_disposables], given by its
    keys in the order of [Object.keys], and the state of the pooled
    resources. *)
Record PoolFields (W : Type) : Type := mkPoolFields {
  _disposables : option (list string);
  world : W;
}.
Arguments mkPoolFields {W} _ _.
Arguments _disposables {W} _.
Arguments world {W} _.

Section Pool.
Context {W : Type} (truthy : Exn -> bool).

(** The name of the class of the pool, and the [dispose()] of the
    resource kept under a key. *)
Context (className : string) (resource_dispose : string -> Comp W unit).

(** A computation on the resources, run from a method of the pool. *)
Definition in_world {A} (m : Comp W A) : Comp (DisposableObj (PoolFields W)) A :=
  fun this =>
    let with_world w :=
      mkDisposableObj (_isDisposed this) (mkPoolFields (_disposables (fields this)) w) in
    match m (world (fields this)) with
    | Ret a w => Ret a (with_world w)
    | Exc e w => Exc e (with_world w)
    | Timeout => Timeout
    end.

(** [get resources()]: a copy of [_disposables], or [undefined]. *)
Definition DisposablePool_resources (this : DisposableObj (PoolFields W))
    : option (list string) :=
  _disposables (fields this).

(** [onDispose()]. *)
Definition DisposablePool_onDispose : Comp (DisposableObj (PoolFields W)) unit :=
  (fun this => assertNotDisposed (_isDisposed this) className None this) ;;;
  (fun this =>
     match DisposablePool_resources this with
     | Some keys =>
         forEach_fresh keys (fun key =>
           in_world (dispose_disposables truthy [resource_dispose key]) ;;; ret tt) this
     | None => Ret tt this
     end) ;;;
  modify (fun this =>
    mkDisposableObj (_isDisposed this) (mkPoolFields None (world (fields this)))).

(** [dispose()], inherited from [AbstractDisposable]. *)
Definition DisposablePool_dispose : Comp (DisposableState (PoolFields W)) unit :=
  AbstractDisposable_dispose DisposablePool_onDispose.

(** [use(callback)]; the callback gets the resources and acts on the
    pool and on the resources. *)
Definition DisposablePool_use
    (callback : list string -> Comp (DisposableState (PoolFields W)) unit)
    : Comp (DisposableState (PoolFields W)) unit :=
  (fun s => assertNotDisposed (AbstractDisposable_isDisposed s) className None s) ;;;
  fun s =>
    let resources := DisposablePool_resources (instance s) in
    try_finally_do
      match resources with
      | Some keys => callback keys
      | None => ret tt
      end
      DisposablePool_dispose s.

(** Every resource's [dispose()] attempted once, in the order of the
    keys, whether it returns or throws. *)
Fixpoint attempt_all (keys : list string) (w : W) : option W :=
  match keys with
  | [] => Some w
  | key :: keys' =>
      match final (resource_dispose key w) with
      | Some w' => attempt_all keys' w'
      | None => None
      end
  end.

End Pool.

(** A callback that returns and leaves every array as it found it. *)
Definition quiet_everywhere {A} (callback : Comp Heap A) : Prop :=
  forall h, exists r h', callback h = Ret r h' /\ forall a, arr h' a = arr h a.

(** What [participant.publish] makes a mediator do on a heap [h]: the
    call of [next] on the mediator, then the calls the routing rule
    selects among its receivers. *)
Definition relayed {Payload} (cls : ObjId -> Class) (sender : symbol)
    (message : Topic * Payload) (h : Heap) (mediator : ObjId)
    : list (Event (Topic * Payload)) :=
  CallIntake mediator sender message
  :: ((fun o => CallNext o message)
        <$> filter (eligible cls sender message.1) (arr h (ObserversOf mediator))).

(** ** Disposables used in the examples *)

(** Resources that count their disposals, keyed [a], [b] and [c]; the
    [dispose()] of [b] throws after counting. *)
Definition counting_resource (key : string) : Comp (list string) unit :=
  fun w => if String.eqb key "b" then Exc "b failed" (w ++ [key]) else Ret tt (w ++ [key]).

Definition fresh_pool : DisposableState (PoolFields (list string)) :=
  mkDisposableState (mkDisposableObj false (mkPoolFields (Some ["a"; "b"; "c"]) [])) 0.

(** Every thrown value of the examples is truthy. *)
Definition all_truthy : Exn -> bool := fun _ => true.

(** Receivers whose [complete] does nothing, except that of [r], which
    throws [e]. *)
Definition throws_on_complete {T} (r : ObjId) (e : Exn) : Callbacks T :=
  mkCallbacks
    (fun _ _ => ret tt)
    (fun _ _ => ret tt)
    (fun o => if decide (o = r) then throw e else ret tt).

(** [observer.subscribe(observable)] for an observable that is a
    [TBaseObservable]. *)
Definition observe (observer observable : ObjId) : Comp Heap Disposable :=
  TAbstractObserver_subscribe TBaseObservable_subscribe observer observable.

(** * Properties *)

(** ** Arrays and the heap *)

Section Arrays.
Context `{EqDecision A}.
Implicit Types (x y : A) (l : list A).

Lemma indexOf_None x l : indexOf x l = None <-> x ∉ l.
Proof.
  induction l as [|y l IH]; simpl.
  - split; [intros _; apply not_elem_of_nil | done].
  - rewrite not_elem_of_cons. destruct (decide (y = x)) as [->|Hne].
    + split; [done | intros [? _]; done].
    + destruct (indexOf x l); simpl.
      * split; [done | intros [_ Hx]; by apply IH in Hx].
      * split; [intros _; split; [congruence | by apply IH] | done].
Qed.

Lemma indexOf_Some x l i : indexOf x l = Some i -> l !! i = Some x.
Proof.
  revert i. induction l as [|y l IH]; intros i; simpl; [done |].
  destruct (decide (y = x)) as [->|Hne].
  - by intros [= <-].
  - destruct (indexOf x l) as [j|]; simpl; [| done].
    intros [= <-]. by apply IH.
Qed.

Lemma indexOf_is_Some x l : is_Some (indexOf x l) <-> x ∈ l.
Proof.
  destruct (indexOf x l) as [i|] eqn:E.
  - split; [intros _ | by eauto].
    apply list_elem_of_lookup. exists i. by apply indexOf_Some.
  - apply indexOf_None in E. split; [by intros [? ?] | done].
Qed.

Lemma includes_true x l : includes x l = true <-> x ∈ l.
Proof. unfold includes. rewrite bool_decide_eq_true. apply indexOf_is_Some. Qed.

Lemma includes_false x l : includes x l = false <-> x ∉ l.
Proof.
  rewrite <- includes_true. destruct (includes x l); split; congruence.
Qed.

Lemma occurrences_nil x : occurrences x [] = 0.
Proof. done. Qed.

Lemma occurrences_cons x y l :
  occurrences x (y :: l) = (if decide (y = x) then 1 else 0) + occurrences x l.
Proof.
  unfold occurrences. rewrite filter_cons. by destruct (decide (y = x)).
Qed.

Lemma occurrences_app x l1 l2 :
  occurrences x (l1 ++ l2) = occurrences x l1 + occurrences x l2.
Proof. unfold occurrences. by rewrite filter_app, length_app. Qed.

Lemma occurrences_0 x l : occurrences x l = 0 <-> x ∉ l.
Proof.
  induction l as [|y l IH]; [split; [intros _; apply not_elem_of_nil | done] |].
  rewrite occurrences_cons, not_elem_of_cons.
  destruct (decide (y = x)) as [->|Hne]; simpl.
  - split; [lia | intros [? _]; done].
  - rewrite IH. split; [intros ?; split; [congruence | done] | by intros [_ ?]].
Qed.

(** Removing the first occurrence of [x] removes one occurrence of
    [x] and nothing else. *)
Lemma occurrences_splice1 x y l i :
  indexOf x l = Some i ->
  occurrences y (splice1 i l) = occurrences y l - (if decide (x = y) then 1 else 0).
Proof.
  revert i. induction l as [|z l IH]; intros i; simpl; [done |].
  destruct (decide (z = x)) as [->|Hne].
  - intros [= <-]. simpl. rewrite occurrences_cons.
    destruct (decide (x = y)); simpl; lia.
  - destruct (indexOf x l) as [j|] eqn:E; simpl; [| done].
    intros [= <-]. simpl.
    rewrite !occurrences_cons, (IH j eq_refl).
    destruct (decide (z = y)) as [->|?], (decide (x = y)) as [->|?]; simpl; try lia.
    done.
Qed.

Lemma indexOf_push_absent x l : x ∉ l -> indexOf x (push x l) = Some (length l).
Proof.
  unfold push. induction l as [|y l IH]; simpl; intros Hx.
  - by rewrite decide_True.
  - apply not_elem_of_cons in Hx as [Hne Hx].
    rewrite decide_False by done. by rewrite IH.
Qed.

End Arrays.

Lemma arr_set_arr a l h : arr (set_arr a l h) a = l.
Proof. destruct a; simpl; by rewrite lookup_insert_eq. Qed.

Lemma arr_set_arr_ne a b l h : a <> b -> arr (set_arr a l h) b = arr h b.
Proof.
  intros Hne. destruct a as [e|p], b as [e'|p']; simpl; try done.
  - rewrite lookup_insert_ne; [done | congruence].
  - rewrite lookup_insert_ne; [done | congruence].
Qed.

Lemma set_arr_same a h l : arr h a = l -> l <> [] -> set_arr a l h = h.
Proof.
  destruct h as [obs meds sub], a as [e|p]; simpl; intros Hl Hne.
  - destruct (obs !! e) as [l'|] eqn:E; simpl in Hl; subst; [| done].
    by rewrite insert_id.
  - destruct (meds !! p) as [l'|] eqn:E; simpl in Hl; subst; [| done].
    by rewrite insert_id.
Qed.

Arguments arr : simpl never.
Arguments set_arr : simpl never.

(** ** TSubscription *)

Lemma TSubscription_isDisposed_empty a x h :
  TSubscription_isDisposed a x h = true <-> arr h a = [].
Proof.
  unfold TSubscription_isDisposed.
  rewrite negb_true_iff, bool_decide_eq_false.
  destruct (arr h a); simpl; split; intros H; try done.
  - intros Hne. by apply Hne.
  - exfalso. by apply H.
Qed.

Lemma TSubscription_dispose_absent a x h :
  x ∉ arr h a -> TSubscription_dispose a x h = Ret tt h.
Proof.
  intros Hx. unfold TSubscription_dispose.
  by rewrite (proj2 (indexOf_None x _) Hx).
Qed.

Lemma TSubscription_dispose_present a x h :
  x ∈ arr h a ->
  exists i, indexOf x (arr h a) = Some i /\
    TSubscription_dispose a x h = Ret tt (set_arr a (splice1 i (arr h a)) h).
Proof.
  intros Hx. apply indexOf_is_Some in Hx as [i Hi]. exists i. split; [done |].
  unfold TSubscription_dispose. by rewrite Hi.
Qed.

(** [dispose] only ever touches the array of the subscription, from
    which it takes one occurrence of the receiver. *)
Lemma TSubscription_dispose_spec a x h :
  exists h', TSubscription_dispose a x h = Ret tt h' /\
    (forall y, occurrences y (arr h' a)
               = occurrences y (arr h a) - (if decide (x = y) then 1 else 0)) /\
    (forall b, a <> b -> arr h' b = arr h b) /\
    subscription h' = subscription h.
Proof.
  destruct (decide (x ∈ arr h a)) as [Hx|Hx].
  - destruct (TSubscription_dispose_present a x h Hx) as (i & Hi & ->).
    eexists; split; [done |]. split; [| split].
    + intros y. rewrite arr_set_arr. by apply occurrences_splice1.
    + intros b Hb. by apply arr_set_arr_ne.
    + by destruct a.
  - rewrite TSubscription_dispose_absent by done.
    eexists; split; [done |]. split; [| done].
    intros y. destruct (decide (x = y)) as [<-|]; [| lia].
    apply occurrences_0 in Hx. lia.
Qed.

Lemma dispose_returns d h : exists h', dispose d h = Ret tt h'.
Proof.
  revert h. induction d as [a x | l IHl d IHd]; intros h; simpl.
  - destruct (TSubscription_dispose_spec a x h) as (h' & -> & _). by eexists.
  - unfold bind. destruct (IHl h) as [h1 ->]. apply IHd.
Qed.

(** C1 (amended): [isDisposed] of a subscription is true exactly when
    the collection it refers to is empty, whether or not its receiver
    is in it.  After [dispose()] it is therefore true exactly when no
    receiver is left, and false as long as another receiver remains
    registered. *)
Theorem isDisposed_iff_collection_empty a x h :
  (TSubscription_isDisposed a x h = true <-> arr h a = []) /\
  exists h', TSubscription_dispose a x h = Ret tt h' /\
    (TSubscription_isDisposed a x h' = true <-> arr h' a = []) /\
    (forall y, y <> x -> y ∈ arr h a -> TSubscription_isDisposed a x h' = false).
Proof.
  split; [apply TSubscription_isDisposed_empty |].
  destruct (TSubscription_dispose_spec a x h) as (h' & Hd & Hocc & _).
  exists h'. split; [done |]. split; [apply TSubscription_isDisposed_empty |].
  intros y Hne Hy.
  destruct (TSubscription_isDisposed a x h') eqn:E; [| done].
  apply TSubscription_isDisposed_empty in E.
  specialize (Hocc y). rewrite E, decide_False in Hocc by congruence.
  rewrite occurrences_nil in Hocc.
  assert (occurrences y (arr h a) = 0) as H0 by lia.
  by apply occurrences_0 in H0.
Qed.

(** C1, as stated, fails: once observer [1] of three has disposed its
    subscription it is absent from the collection, yet the
    subscription does not report disposed. *)
Lemma isDisposed_not_membership :
  exists h,
    (three_observers ;;; TSubscription_dispose (ObserversOf 0) 1) empty_heap = Ret tt h /\
    (1 ∉ arr h (ObserversOf 0)) /\
    ~ (TSubscription_isDisposed (ObserversOf 0) 1 h = true <-> 1 ∉ arr h (ObserversOf 0)).
Proof.
  eexists. split; [vm_compute; reflexivity |].
  assert (1 ∉ [2; 3]) as Hout by (apply includes_false; reflexivity).
  split; [exact Hout |]. intros [_ H]. specialize (H Hout). discriminate H.
Qed.

(** ** The two loops *)

Section Loops.
Context {T : Type}.
Implicit Types (s : State T) (body : ObjId -> Comp (State T) unit).

(** While no call disturbs the array, [for...of] visits the entries
    that the array had at the start. *)
Lemma for_of_each a body l fuel index s :
  arr (heap s) a = l ->
  (forall x, x ∈ l -> steady a body x) ->
  length l - index <= fuel ->
  for_of fuel a body index s = each body (drop index l) s.
Proof.
  intros Hl Hsteady. revert index s Hl.
  induction fuel as [|fuel IH]; intros index s Hl Hfuel.
  - simpl. destruct (arr (heap s) a !! index) as [x|] eqn:E.
    + apply lookup_lt_Some in E. rewrite Hl in E. lia.
    + apply lookup_ge_None in E. rewrite Hl in E. by rewrite drop_ge.
  - simpl. destruct (arr (heap s) a !! index) as [x|] eqn:E.
    + rewrite Hl in E. rewrite (drop_S _ _ _ E). simpl. unfold bind.
      destruct (Hsteady x (list_elem_of_lookup_2 _ _ _ E) s) as (s' & -> & Hs').
      apply IH; [congruence | lia].
    + apply lookup_ge_None in E. rewrite Hl in E. by rewrite drop_ge.
Qed.

(** Under the same condition so does [forEach]. *)
Lemma forEach_from_each a body l n k s :
  arr (heap s) a = l ->
  (forall x, x ∈ l -> steady a body x) ->
  forEach_from n k a body s = each body (take n (drop k l)) s.
Proof.
  intros Hl Hsteady. revert k s Hl.
  induction n as [|n IH]; intros k s Hl; simpl; [done |].
  destruct (arr (heap s) a !! k) as [x|] eqn:E.
  - rewrite Hl in E. rewrite (drop_S _ _ _ E). simpl. unfold bind.
    destruct (Hsteady x (list_elem_of_lookup_2 _ _ _ E) s) as (s' & -> & Hs').
    apply IH. congruence.
  - rewrite IH by done. apply lookup_ge_None in E. rewrite Hl in E.
    rewrite !drop_ge by lia. by rewrite !take_nil.
Qed.

Lemma forEach_each a body s :
  (forall x, x ∈ arr (heap s) a -> steady a body x) ->
  forEach a body s = each body (arr (heap s) a) s.
Proof.
  intros Hsteady. unfold forEach.
  rewrite (forEach_from_each a body (arr (heap s) a)) by done.
  by rewrite drop_0, firstn_all.
Qed.

(** An invariant of the states between two calls is an invariant of
    the loop, however the loop ends. *)
Lemma for_of_invariant (I : State T -> Prop) a body fuel index s s' :
  (forall i x s1 s2,
      I s1 -> arr (heap s1) a !! i = Some x -> final (body x s1) = Some s2 -> I s2) ->
  I s ->
  final (for_of fuel a body index s) = Some s' ->
  I s'.
Proof.
  intros Hbody. revert index s.
  induction fuel as [|fuel IH]; intros index s HI; simpl.
  - destruct (arr (heap s) a !! index); simpl; [done |]. by intros [= <-].
  - destruct (arr (heap s) a !! index) as [x|] eqn:E; simpl; [| by intros [= <-]].
    destruct (body x s) as [[] s1|e s1|] eqn:Eb; simpl.
    + apply IH. eapply Hbody; [done | done |]. by rewrite Eb.
    + intros [= <-]. eapply Hbody; [done | done |]. by rewrite Eb.
    + done.
Qed.

Lemma forEach_from_invariant (I : State T -> Prop) a body n k s s' :
  (forall i x s1 s2,
      I s1 -> arr (heap s1) a !! i = Some x -> final (body x s1) = Some s2 -> I s2) ->
  I s ->
  final (forEach_from n k a body s) = Some s' ->
  I s'.
Proof.
  intros Hbody. revert k s.
  induction n as [|n IH]; intros k s HI; simpl; [by intros [= <-] |].
  destruct (arr (heap s) a !! k) as [x|] eqn:E; [| by apply IH].
  unfold bind. destruct (body x s) as [[] s1|e s1|] eqn:Eb; simpl.
  - apply IH. eapply Hbody; [done | done |]. by rewrite Eb.
  - intros [= <-]. eapply Hbody; [done | done |]. by rewrite Eb.
  - done.
Qed.

(** A pass that has come to [index] goes on from there. *)
Lemma for_of_resume a body s0 index s :
  for_of_reaches a body s0 index s ->
  forall fuel, for_of (index + fuel) a body 0 s0 = for_of fuel a body index s.
Proof.
  induction 1 as [|index s x s' _ IH Hx Hbody]; intros fuel; [done |].
  replace (S index + fuel) with (index + S fuel) by lia.
  rewrite IH. simpl. by rewrite Hx, Hbody.
Qed.

Lemma forEach_resume a body s0 k s :
  forEach_reaches a body s0 k s ->
  forall n, forEach_from (k + n) 0 a body s0 = forEach_from n k a body s.
Proof.
  induction 1 as [|k s x s' _ IH Hx Hbody|k s _ IH Hx]; intros n; [done | |].
  - replace (S k + n) with (k + S n) by lia.
    rewrite IH. simpl. rewrite Hx. unfold bind. by rewrite Hbody.
  - replace (S k + n) with (k + S n) by lia.
    rewrite IH. simpl. by rewrite Hx.
Qed.

(** A call that throws ends the pass then and there. *)
Lemma for_of_throw a body s0 index s x e s' fuel :
  for_of_reaches a body s0 index s ->
  arr (heap s) a !! index = Some x ->
  body x s = Exc e s' ->
  index < fuel ->
  for_of fuel a body 0 s0 = Exc e s'.
Proof.
  intros Hreach Hx Hexc Hfuel.
  replace fuel with (index + S (fuel - S index)) by lia.
  rewrite (for_of_resume _ _ _ _ _ Hreach). simpl. by rewrite Hx, Hexc.
Qed.

Lemma forEach_throw a body s0 k s x e s' :
  forEach_reaches a body s0 k s ->
  k < length (arr (heap s0) a) ->
  arr (heap s) a !! k = Some x ->
  body x s = Exc e s' ->
  forEach a body s0 = Exc e s'.
Proof.
  intros Hreach Hk Hx Hexc. unfold forEach.
  replace (length (arr (heap s0) a))
    with (k + S (length (arr (heap s0) a) - S k)) by lia.
  rewrite (forEach_resume _ _ _ _ _ Hreach). simpl. rewrite Hx.
  unfold bind. by rewrite Hexc.
Qed.

End Loops.

(** ** Calls on receivers *)

Section Calls.
Context {T : Type}.
Implicit Types (s : State T) (tr : list (Event T)).

Lemma next_calls_app r tr1 tr2 :
  next_calls r (tr1 ++ tr2) = next_calls r tr1 + next_calls r tr2.
Proof.
  induction tr1 as [|[o v|o e|o|m p v] tr1 IH]; simpl; [done | | done | done | done].
  rewrite IH. lia.
Qed.

Lemma intake_calls_app m tr1 tr2 :
  intake_calls m (tr1 ++ tr2) = intake_calls m tr1 + intake_calls m tr2.
Proof.
  induction tr1 as [|[o v|o e|o|m' p v] tr1 IH]; simpl; [done | done | done | done |].
  rewrite IH. lia.
Qed.

Lemma next_calls_fmap r (v : T) xs :
  next_calls r ((fun o => CallNext o v) <$> xs) = occurrences r xs.
Proof.
  induction xs as [|x xs IH]; [done |].
  rewrite fmap_cons, occurrences_cons. simpl. by rewrite IH.
Qed.


Lemma invoke_quiet a (ev : Event T) callback s :
  quiet_on a callback ->
  exists s', invoke ev callback s = Ret tt s' /\
    trace s' = trace s ++ [ev] /\ arr (heap s') a = arr (heap s) a.
Proof.
  intros Hq. destruct (Hq (heap s)) as ([] & h' & Hc & Ha).
  unfold invoke. rewrite Hc. by eexists.
Qed.

Lemma invoke_final (ev : Event T) callback s s' :
  final (invoke ev callback s) = Some s' ->
  trace s' = trace s ++ [ev] /\ final (callback (heap s)) = Some (heap s').
Proof.
  unfold invoke. destruct (callback (heap s)) as [[] h|e h|]; simpl; [| | done].
  - by intros [= <-].
  - by intros [= <-].
Qed.

(** Delivery over a snapshot to the receivers that pass a test, by
    callbacks that leave the array alone: one call for each of them,
    in order. *)
Lemma each_guarded_quiet a (P : ObjId -> Prop) `{forall x, Decision (P x)}
    (ev : ObjId -> Event T) (callback : ObjId -> Comp Heap unit) body xs s :
  (forall x, body x = if decide (P x) then invoke (ev x) (callback x) else ret tt) ->
  (forall x, x ∈ xs -> P x -> quiet_on a (callback x)) ->
  exists s', each body xs s = Ret tt s' /\
    trace s' = trace s ++ (ev <$> filter P xs) /\
    arr (heap s') a = arr (heap s) a.
Proof.
  intros Hbody. revert s. induction xs as [|x xs IH]; intros s Hq.
  - exists s. rewrite filter_nil, fmap_nil, app_nil_r. done.
  - simpl. unfold bind. rewrite Hbody, filter_cons.
    destruct (decide (P x)) as [HP|HP].
    + destruct (invoke_quiet a (ev x) (callback x) s) as (s1 & -> & Htr & Ha).
      { apply Hq; [apply list_elem_of_here | done]. }
      destruct (IH s1) as (s' & -> & Htr' & Ha').
      { intros y Hy. apply Hq. by apply list_elem_of_further. }
      exists s'. split; [done |]. rewrite Htr', Htr, Ha', Ha, fmap_cons.
      by rewrite <- app_assoc.
    + unfold ret. apply IH. intros y Hy. apply Hq. by apply list_elem_of_further.
Qed.

Lemma guarded_steady a (P : ObjId -> Prop) `{forall x, Decision (P x)}
    (ev : ObjId -> Event T) (callback : ObjId -> Comp Heap unit) body x :
  (forall x, body x = if decide (P x) then invoke (ev x) (callback x) else ret tt) ->
  (P x -> quiet_on a (callback x)) ->
  steady a body x.
Proof.
  intros Hbody Hq s. rewrite Hbody. destruct (decide (P x)) as [HP|HP].
  - destruct (invoke_quiet a (ev x) (callback x) s (Hq HP)) as (s' & -> & _ & Ha).
    by exists s'.
  - by exists s.
Qed.

Lemma filter_all (xs : list ObjId) : filter (fun _ => True) xs = xs.
Proof.
  induction xs as [|x xs IH]; [done |]. rewrite filter_cons. simpl. by rewrite IH.
Qed.

Lemma each_invoke_quiet a (ev : ObjId -> Event T)
    (callback : ObjId -> Comp Heap unit) xs s :
  (forall x, x ∈ xs -> quiet_on a (callback x)) ->
  exists s', each (fun x => invoke (ev x) (callback x)) xs s = Ret tt s' /\
    trace s' = trace s ++ (ev <$> xs) /\
    arr (heap s') a = arr (heap s) a.
Proof.
  intros Hq.
  destruct (each_guarded_quiet a (fun _ => True) (H := fun _ => True_dec)
              ev callback (fun x => invoke (ev x) (callback x)) xs s)
    as (s' & Hs' & Htr & Ha); [done | by auto |].
  exists s'. by rewrite filter_all in Htr.
Qed.

Lemma invoke_steady a (ev : ObjId -> Event T)
    (callback : ObjId -> Comp Heap unit) x :
  quiet_on a (callback x) ->
  steady a (fun x => invoke (ev x) (callback x)) x.
Proof.
  intros Hq.
  by apply (guarded_steady a (fun _ => True) (H := fun _ => True_dec) ev callback).
Qed.

End Calls.

(** ** TBaseObservable *)

Section ObservableProps.
Context {T : Type} (cb : Callbacks T).
Implicit Types (s : State T).

Lemma publish_empty fuel this v s :
  arr (heap s) (ObserversOf this) = [] ->
  TBaseObservable_publish cb fuel this v s = Ret tt s.
Proof.
  intros Hempty. unfold TBaseObservable_publish.
  destruct fuel; simpl; by rewrite Hempty.
Qed.

(** With receivers that leave the collection alone, [publish] calls
    [next] once on every receiver, in insertion order. *)
Lemma publish_quiet fuel this v s :
  (forall o, o ∈ arr (heap s) (ObserversOf this) ->
             quiet_on (ObserversOf this) (on_next cb o v)) ->
  length (arr (heap s) (ObserversOf this)) <= fuel ->
  exists s', TBaseObservable_publish cb fuel this v s = Ret tt s' /\
    trace s' = trace s ++ ((fun o => CallNext o v) <$> arr (heap s) (ObserversOf this)) /\
    arr (heap s') (ObserversOf this) = arr (heap s) (ObserversOf this).
Proof.
  intros Hq Hfuel. unfold TBaseObservable_publish, call_next.
  set (a := ObserversOf this) in *. set (l := arr (heap s) a) in *.
  rewrite (for_of_each a _ l); [| done | | lia].
  - rewrite drop_0.
    apply (each_invoke_quiet a (fun o => CallNext o v) (fun o => on_next cb o v)).
    exact Hq.
  - intros x Hx.
    apply (invoke_steady a (fun o => CallNext o v) (fun o => on_next cb o v)).
    by apply Hq.
Qed.

Lemma complete_clears fuel this s s' :
  TBaseObservable_complete cb fuel this s = Ret tt s' ->
  arr (heap s') (ObserversOf this) = [].
Proof.
  unfold TBaseObservable_complete, bind, lift, modify.
  destruct (for_of _ _ _ _ _) as [[] s1| |]; [| done | done].
  intros [= <-]. apply arr_set_arr.
Qed.

(** With receivers whose [complete] leaves the collection alone,
    [complete] calls [complete] once on every receiver, in insertion
    order, and then empties the collection. *)
Lemma complete_quiet fuel this s :
  (forall o, o ∈ arr (heap s) (ObserversOf this) ->
             quiet_on (ObserversOf this) (on_complete cb o)) ->
  length (arr (heap s) (ObserversOf this)) <= fuel ->
  exists s', TBaseObservable_complete cb fuel this s = Ret tt s' /\
    trace s' = trace s ++ (CallComplete <$> arr (heap s) (ObserversOf this)) /\
    arr (heap s') (ObserversOf this) = [] /\
    (forall x, TSubscription_isDisposed (ObserversOf this) x (heap s') = true) /\
    (forall fuel' v, TBaseObservable_publish cb fuel' this v s' = Ret tt s').
Proof.
  intros Hq Hfuel. unfold TBaseObservable_complete.
  set (a := ObserversOf this) in *. set (l := arr (heap s) a) in *.
  unfold bind. rewrite (for_of_each a _ l); [| done | | lia].
  - rewrite drop_0.
    destruct (each_invoke_quiet a CallComplete (on_complete cb) l s Hq)
      as (s1 & Hs1 & Htr & Ha).
    unfold call_complete. rewrite Hs1.
    eexists. split; [reflexivity |].
    simpl. rewrite arr_set_arr. repeat split; [done | |].
    + intros x. apply TSubscription_isDisposed_empty. apply arr_set_arr.
    + intros fuel' v. apply publish_empty. apply arr_set_arr.
  - intros x Hx. apply (invoke_steady a CallComplete (on_complete cb)).
    by apply Hq.
Qed.

(** Receivers that are not put back into the collection by any
    callback are not called. *)
Lemma publish_not_registered fuel this v x s s' :
  (forall o, keeps_out (ObserversOf this) x (on_next cb o v)) ->
  x ∉ arr (heap s) (ObserversOf this) ->
  final (TBaseObservable_publish cb fuel this v s) = Some s' ->
  next_calls x (trace s') = next_calls x (trace s) /\
  x ∉ arr (heap s') (ObserversOf this).
Proof.
  intros Hkeep Hx Hfinal.
  pose (I := fun s1 : State T =>
    next_calls x (trace s1) = next_calls x (trace s) /\
    x ∉ arr (heap s1) (ObserversOf this)).
  unfold TBaseObservable_publish in Hfinal.
  refine (for_of_invariant I _ _ _ _ _ _ _ _ Hfinal); [| by split].
  intros i o s1 s2 [Hn Hout] Ho Hf. apply invoke_final in Hf as [Htr Hh].
  split.
  - rewrite Htr, next_calls_app, Hn. simpl.
    rewrite decide_False; [lia |]. intros ->.
    apply Hout. by eapply list_elem_of_lookup_2.
  - by eapply Hkeep.
Qed.

End ObservableProps.

(** ** TBaseMediator.next *)

Section Routing.
Context {Payload : Type} (cls : ObjId -> Class) (cb : Callbacks (Topic * Payload)).
Implicit Types (s : State (Topic * Payload)).

(** The tests of [next] on the members of a receiver amount to the
    routing rule. *)
Lemma route_guarded sender topic message x :
  route cls cb sender topic message x
  = if decide (eligible cls sender topic x)
    then invoke (CallNext x (topic, message)) (on_next cb x (topic, message))
    else ret tt.
Proof.
  destruct (decide (eligible cls sender topic x)) as [He|He];
    unfold eligible in He; unfold route, call_next;
    destruct (topics_of (cls x)) as [ts|];
    try destruct (participantId_of (cls x)) as [pid|]; try done.
  - destruct He as [Hin Hne]. apply includes_true in Hin. rewrite Hin.
    by rewrite bool_decide_eq_false_2.
  - apply includes_true in He. by rewrite He.
  - destruct (includes topic ts) eqn:Hin; [| done].
    destruct (bool_decide (pid = sender)) eqn:Hpid; [done |].
    exfalso. apply He. split; [by apply includes_true |].
    by apply bool_decide_eq_false in Hpid.
  - destruct (includes topic ts) eqn:Hin; [| done].
    exfalso. apply He. by apply includes_true.
Qed.

(** With callbacks that return and leave the mediator's collection
    alone, [next] calls the receivers that the routing rule selects,
    once each and in insertion order. *)
Lemma mediator_next_quiet this sender topic payload s :
  (forall o, o ∈ arr (heap s) (ObserversOf this) ->
             eligible cls sender topic o ->
             quiet_on (ObserversOf this) (on_next cb o (topic, payload))) ->
  exists s' evs,
    TBaseMediator_next cls cb this (sender, topic, payload) s = Ret tt s' /\
    trace s' = trace s ++ evs /\
    evs = (fun o => CallNext o (topic, payload))
            <$> filter (eligible cls sender topic) (arr (heap s) (ObserversOf this)) /\
    (forall o, o ∈ arr (heap s) (ObserversOf this) ->
               (CallNext o (topic, payload) ∈ evs <-> eligible cls sender topic o)) /\
    (forall o topics v, cls o = CParticipant topics sender -> CallNext o v ∉ evs).
Proof.
  intros Hq. unfold TBaseMediator_next.
  set (a := ObserversOf this) in *. set (l := arr (heap s) a) in *.
  rewrite forEach_each.
  - destruct (each_guarded_quiet a (eligible cls sender topic)
                (fun o => CallNext o (topic, payload))
                (fun o => on_next cb o (topic, payload))
                (route cls cb sender topic payload) l s) as (s' & Hs' & Htr & _).
    { intros x. apply route_guarded. }
    { exact Hq. }
    exists s', ((fun o => CallNext o (topic, payload))
                  <$> filter (eligible cls sender topic) l).
    repeat split; try done.
    + intros (o' & [= <-] & Ho')%list_elem_of_fmap.
      by apply list_elem_of_filter in Ho' as [? _].
    + intros He. apply list_elem_of_fmap. exists o. split; [done |].
      by apply list_elem_of_filter.
    + intros o topics v Ho (o' & [= <- _] & Ho')%list_elem_of_fmap.
      apply list_elem_of_filter in Ho' as [He _].
      unfold eligible in He. rewrite Ho in He. simpl in He. by destruct He.
  - intros x Hx.
    apply (guarded_steady a (eligible cls sender topic)
             (fun o => CallNext o (topic, payload))
             (fun o => on_next cb o (topic, payload))).
    + intros y. apply route_guarded.
    + intros He. by apply Hq.
Qed.



End Routing.

Lemma silent_quiet {T} a o (v : T) : quiet_on a (on_next silent o v).
Proof. intros h. by exists tt, h. Qed.


(** ** Registration with a mediator *)

Lemma occurrences_push (x y : ObjId) l :
  occurrences x (push y l) = occurrences x l + (if decide (y = x) then 1 else 0).
Proof.
  unfold push. rewrite occurrences_app, occurrences_cons, occurrences_nil. lia.
Qed.

Lemma arr_register a x h :
  arr (register a x h) a = if includes x (arr h a) then arr h a else push x (arr h a).
Proof.
  unfold register. destruct (includes x (arr h a)); [done | apply arr_set_arr].
Qed.

Lemma arr_register_ne a b x h : a <> b -> arr (register a x h) b = arr h b.
Proof.
  intros Hne. unfold register.
  destruct (includes x (arr h a)); [done | by apply arr_set_arr_ne].
Qed.

Lemma register_elem_of a x h : x ∈ arr (register a x h) a.
Proof.
  rewrite arr_register. destruct (includes x (arr h a)) eqn:E.
  - by apply includes_true.
  - unfold push. apply elem_of_app. right. apply list_elem_of_here.
Qed.

Lemma register_present a x h : x ∈ arr h a -> register a x h = h.
Proof. intros Hx. unfold register. by rewrite (proj2 (includes_true x _) Hx). Qed.

Lemma occurrences_register a x y h :
  occurrences y (arr (register a x h) a)
  = if decide (x = y) then Nat.max 1 (occurrences y (arr h a))
    else occurrences y (arr h a).
Proof.
  rewrite arr_register. destruct (includes x (arr h a)) eqn:E.
  - destruct (decide (x = y)) as [<-|]; [| done].
    apply includes_true in E.
    destruct (occurrences x (arr h a)) eqn:E0; [| lia].
    by apply occurrences_0 in E0.
  - rewrite occurrences_push. destruct (decide (x = y)) as [<-|]; [| lia].
    apply includes_false, occurrences_0 in E. lia.
Qed.

Lemma register_duplicate_free a x h :
  duplicate_free h -> duplicate_free (register a x h).
Proof.
  intros Hh b y. destruct (decide (a = b)) as [<-|Hne].
  - rewrite occurrences_register. specialize (Hh a y).
    destruct (decide (x = y)); lia.
  - rewrite arr_register_ne by done. apply Hh.
Qed.

Section Subscribing.
Context (cls : ObjId -> Class).

Lemma participant_subscribe_tracked fuel p M h :
  M ∈ arr h (MediatorsOf p) ->
  TAbstractParticipant_subscribe cls (S fuel) p M h
  = Ret (TSubscription (MediatorsOf p) M) h.
Proof. intros HM. simpl. by rewrite (proj2 (includes_true M _) HM). Qed.

(** A receiver without both [subscribe] and [publish] is registered
    and gets a plain subscription. *)
Lemma mediator_subscribe_plain fuel M r h :
  has_subscribe_and_publish (cls r) = false ->
  TBaseMediator_subscribe cls (S fuel) M r h
  = Ret (TSubscription (ObserversOf M) r) (register (ObserversOf M) r h).
Proof.
  intros Hplain. simpl. unfold register.
  destruct (cls r); try discriminate Hplain;
    by destruct (includes r (arr h (ObserversOf M))).
Qed.

(** [participant.subscribe(mediator)] tracks the mediator and, when it
    was not tracked yet, registers the participant with it. *)
Lemma participant_subscribe_spec fuel p M h topics participantId :
  cls p = CParticipant topics participantId ->
  TAbstractParticipant_subscribe cls (3 + fuel) p M h
  = Ret (TSubscription (MediatorsOf p) M)
        (if includes M (arr h (MediatorsOf p)) then h
         else register (ObserversOf M) p (register (MediatorsOf p) M h)).
Proof.
  intros Hp. cbn [plus]. cbn [TAbstractParticipant_subscribe].
  destruct (includes M (arr h (MediatorsOf p))) eqn:EM; [done |]. cbn [negb].
  unfold register at 2. rewrite EM.
  set (h1 := set_arr (MediatorsOf p) _ h).
  assert (M ∈ arr h1 (MediatorsOf p)) as HM1.
  { unfold h1. rewrite arr_set_arr. unfold push.
    apply elem_of_app. right. apply list_elem_of_here. }
  unfold bind. cbn [TBaseMediator_subscribe]. rewrite Hp.
  unfold register. destruct (includes p (arr h1 (ObserversOf M))) eqn:Ep; cbn [negb].
  - unfold bind. by rewrite participant_subscribe_tracked.
  - rewrite participant_subscribe_tracked; [done |].
    by rewrite arr_set_arr_ne.
Qed.

(** [mediator.subscribe(participant)] registers the participant, and
    has the participant track the mediator. *)
Lemma mediator_subscribe_participant fuel M p h topics participantId :
  cls p = CParticipant topics participantId ->
  TBaseMediator_subscribe cls (4 + fuel) M p h
  = Ret (if includes p (arr h (ObserversOf M))
         then Composite (TSubscription (ObserversOf M) p)
                        (TSubscription (MediatorsOf p) M)
         else TSubscription (MediatorsOf p) M)
        (register (MediatorsOf p) M (register (ObserversOf M) p h)).
Proof.
  intros Hp. cbn [plus]. cbn [TBaseMediator_subscribe]. rewrite Hp.
  change (S (S (S fuel))) with (3 + fuel).
  assert (forall h1, p ∈ arr h1 (ObserversOf M) ->
            TAbstractParticipant_subscribe cls (3 + fuel) p M h1
            = Ret (TSubscription (MediatorsOf p) M) (register (MediatorsOf p) M h1))
    as Hsub.
  { intros h1 Hp1. rewrite (participant_subscribe_spec _ _ _ _ _ _ Hp).
    unfold register at 2 3.
    destruct (includes M (arr h1 (MediatorsOf p))); [done |].
    rewrite register_present; [done |]. by rewrite arr_set_arr_ne. }
  unfold register at 2.
  destruct (includes p (arr h (ObserversOf M))) eqn:Ep; cbn [negb].
  - unfold bind. rewrite Hsub; [done | by apply includes_true].
  - rewrite Hsub; [done |]. rewrite arr_set_arr. unfold push.
    apply elem_of_app. right. apply list_elem_of_here.
Qed.


(** C9: when the receiver given to [TBaseMediator.subscribe] is itself
    a [TBaseMediator] (the mediator itself included), the call does
    not return: each mediator calls the other's [subscribe] again,
    whether or not the receiver was already registered, so no amount
    of fuel lets the call end. *)
Theorem mediator_subscribe_mediator_diverges fuel M1 M2 h :
  cls M1 = CMediator -> cls M2 = CMediator ->
  TBaseMediator_subscribe cls fuel M1 M2 h = Timeout.
Proof.
  revert M1 M2 h. induction fuel as [|fuel IH]; intros M1 M2 h H1 H2; [done |].
  cbn [TBaseMediator_subscribe]. rewrite H2.
  destruct (negb (includes M2 (arr h (ObserversOf M1)))).
  - by apply IH.
  - unfold bind. by rewrite IH.
Qed.

End Subscribing.

(** C9 at work: mediator [5] given to mediator [0], and mediator [0]
    given to itself. *)
Lemma mediator_subscribe_mediator_diverges_witness :
  TBaseMediator_subscribe cast 1000 0 5 empty_heap = Timeout /\
  TBaseMediator_subscribe cast 1000 0 0 empty_heap = Timeout.
Proof.
  split.
  - apply (mediator_subscribe_mediator_diverges cast 1000 0 5 empty_heap);
      reflexivity.
  - apply (mediator_subscribe_mediator_diverges cast 1000 0 0 empty_heap);
      reflexivity.
Defined.



(** ** TAbstractParticipant *)

Lemma final_bind {St A B} (m : Comp St A) (k : A -> Comp St B) s s' :
  final (bind m k s) = Some s' ->
  (exists a s1, m s = Ret a s1 /\ final (k a s1) = Some s') \/
  (exists e, m s = Exc e s').
Proof.
  unfold bind. destruct (m s) as [a s1|e s1|]; simpl; [by eauto | | done].
  intros [= <-]. by eauto.
Qed.

Section Publishing.
Context {Payload : Type} (cls : ObjId -> Class) (cb : Callbacks (Topic * Payload)).
Implicit Types (s : State (Topic * Payload)).

(** What a mediator does on [next] adds no call of [next] on a
    mediator, and the callbacks it runs are all that touches the
    heap. *)
Lemma mediator_next_keeps_out a x M m value n s s' :
  (forall o v, keeps_out a x (on_next cb o v)) ->
  intake_calls M (trace s) = n -> x ∉ arr (heap s) a ->
  final (TBaseMediator_next cls cb m value s) = Some s' ->
  intake_calls M (trace s') = n /\ x ∉ arr (heap s') a.
Proof.
  intros Hkeep Hn Hx. destruct value as [[sender topic] payload].
  unfold TBaseMediator_next, forEach. intros Hfinal.
  pose (I := fun s1 : State (Topic * Payload) =>
    intake_calls M (trace s1) = n /\ x ∉ arr (heap s1) a).
  refine (forEach_from_invariant I _ _ _ _ _ _ _ _ Hfinal); [| by split].
  intros i o s1 s2 [Hn1 Hx1]. intros _. rewrite route_guarded.
  destruct (decide (eligible cls sender topic o)).
  - intros [Htr Hh]%invoke_final. split.
    + rewrite Htr, intake_calls_app, Hn1. simpl. lia.
    + by eapply Hkeep.
  - by intros [= <-].
Qed.

(** A participant does not call [next] on a mediator it does not track,
    as long as no callback makes it track that mediator again. *)
Lemma participant_publish_untracked p M message s s' :
  (forall o v, keeps_out (MediatorsOf p) M (on_next cb o v)) ->
  M ∉ arr (heap s) (MediatorsOf p) ->
  final (TAbstractParticipant_publish cls cb p message s) = Some s' ->
  intake_calls M (trace s') = intake_calls M (trace s).
Proof.
  intros Hkeep HM. unfold TAbstractParticipant_publish.
  destruct (participantId_of (cls p)) as [pid|]; [| by intros [= <-]].
  unfold forEach. intros Hfinal.
  pose (I := fun s1 : State (Topic * Payload) =>
    intake_calls M (trace s1) = intake_calls M (trace s) /\
    M ∉ arr (heap s1) (MediatorsOf p)).
  assert (I s') as [? _]; [| done].
  refine (forEach_from_invariant I _ _ _ _ _ _ _ _ Hfinal); [| by split].
  intros i m s1 s2 [Hn1 HM1] Hm. unfold bind, record, I.
  apply mediator_next_keeps_out; [done | | done]. simpl.
  rewrite intake_calls_app, Hn1. simpl. rewrite decide_False; [lia |].
  intros ->. apply HM1. by eapply list_elem_of_lookup_2.
Qed.

(** C8: the disposable that [participant.subscribe(mediator)] returns
    is a subscription over the participant's own list of mediators,
    and [mediator.subscribe] returns the same for a participant it
    newly adds.  Disposing it takes the mediator off that list, so a
    later [participant.publish] makes no call of [next] on the
    mediator, and it leaves the collection of every emitter, that of
    the mediator included, as it was: the participant stays
    registered.  The list is taken to hold the mediator at most once
    beforehand, which [subscribe] maintains, and no callback run by
    [publish] to put the mediator back on the list. *)
Theorem participant_subscription_revokes_outgoing_link fuel p M h topics participantId :
  cls p = CParticipant topics participantId ->
  occurrences M (arr h (MediatorsOf p)) <= 1 ->
  let d := TSubscription (MediatorsOf p) M in
  (exists h1, TAbstractParticipant_subscribe cls (3 + fuel) p M h = Ret d h1) /\
  (p ∉ arr h (ObserversOf M) ->
   exists h1, TBaseMediator_subscribe cls (4 + fuel) M p h = Ret d h1) /\
  forall h1,
    TAbstractParticipant_subscribe cls (3 + fuel) p M h = Ret d h1 \/
    TBaseMediator_subscribe cls (4 + fuel) M p h = Ret d h1 ->
    exists h2,
      dispose d h1 = Ret tt h2 /\
      (M ∉ arr h2 (MediatorsOf p)) /\
      (forall e, arr h2 (ObserversOf e) = arr h1 (ObserversOf e)) /\
      (M ∉ arr h (MediatorsOf p) -> p ∈ arr h2 (ObserversOf M)) /\
      forall message tr s',
        (forall o v, keeps_out (MediatorsOf p) M (on_next cb o v)) ->
        final (TAbstractParticipant_publish cls cb p message (mkState h2 tr)) = Some s' ->
        intake_calls M (trace s') = intake_calls M tr.
Proof.
  intros Hp Hocc d.
  pose proof (participant_subscribe_spec cls fuel p M h _ _ Hp) as HP.
  pose proof (mediator_subscribe_participant cls fuel M p h _ _ Hp) as HM.
  split; [by eexists |]. split.
  { intros Hout. apply includes_false in Hout. rewrite Hout in HM. by eexists. }
  intros h1 Hh1.
  assert (occurrences M (arr h1 (MediatorsOf p)) <= 1 /\
          (M ∉ arr h (MediatorsOf p) -> p ∈ arr h1 (ObserversOf M))) as [Hocc1 Hreg].
  { destruct Hh1 as [Hh1|Hh1].
    - rewrite HP in Hh1. injection Hh1 as <-.
      destruct (includes M (arr h (MediatorsOf p))) eqn:E.
      + split; [done |]. intros Hout. by apply includes_false in Hout; congruence.
      + split; [| intros _; apply register_elem_of].
        rewrite arr_register_ne, occurrences_register, decide_True by done. lia.
    - rewrite HM in Hh1. injection Hh1 as _ <-. split.
      + rewrite occurrences_register, decide_True by done.
        rewrite arr_register_ne by done. lia.
      + intros _. rewrite arr_register_ne by done. apply register_elem_of. }
  destruct (TSubscription_dispose_spec (MediatorsOf p) M h1)
    as (h2 & Hd & Hocc2 & Hframe & _).
  assert (M ∉ arr h2 (MediatorsOf p)) as Hgone.
  { apply occurrences_0. rewrite Hocc2, decide_True by done. lia. }
  exists h2. split; [done |]. split; [done |]. split; [| split].
  - intros e. by apply Hframe.
  - intros Hout. rewrite Hframe by done. by apply Hreg.
  - intros message tr s' Hkeep Hfinal.
    by apply (participant_publish_untracked p M message (mkState h2 tr) s').
Qed.

End Publishing.

Lemma silent_keeps_out {T} a x o (v : T) : keeps_out a x (on_next silent o v).
Proof. intros h h' [= <-]. done. Qed.

(** C8 at work: participant [3] subscribes to mediator [0]. *)
Lemma participant_subscription_revokes_outgoing_link_witness :
  let d := TSubscription (MediatorsOf 3) 0 in
  (exists h1, TAbstractParticipant_subscribe cast 3 3 0 empty_heap = Ret d h1) /\
  (3 ∉ arr empty_heap (ObserversOf 0) ->
   exists h1, TBaseMediator_subscribe cast 4 0 3 empty_heap = Ret d h1) /\
  forall h1,
    TAbstractParticipant_subscribe cast 3 3 0 empty_heap = Ret d h1 \/
    TBaseMediator_subscribe cast 4 0 3 empty_heap = Ret d h1 ->
    exists h2,
      dispose d h1 = Ret tt h2 /\
      (0 ∉ arr h2 (MediatorsOf 3)) /\
      (forall e, arr h2 (ObserversOf e) = arr h1 (ObserversOf e)) /\
      (0 ∉ arr empty_heap (MediatorsOf 3) -> 3 ∈ arr h2 (ObserversOf 0)) /\
      forall (message : Topic * nat) tr s',
        (forall o (v : Topic * nat), keeps_out (MediatorsOf 3) 0 (on_next silent o v)) ->
        final (TAbstractParticipant_publish cast silent 3 message (mkState h2 tr)) = Some s' ->
        intake_calls 0 (trace s') = intake_calls 0 tr.
Proof.
  apply (participant_subscription_revokes_outgoing_link cast silent 0 3 0 empty_heap
           ["A"] 30).
  - reflexivity.
  - vm_compute. lia.
Defined.

(** ** Mutation and exceptions during a pass *)

(** C3, on the code: observers [1], [2] and [3] are registered, and the
    [next] of [1] disposes the subscription of [1].  One [publish]
    calls [1] and [3]: observer [2], registered before and after, is
    passed over, because the array shrank under the iterator. *)
Theorem publish_skips_peer_of_leaving_receiver :
  arr (after three_observers) (ObserversOf 0) = [1; 2; 3] /\
  exists s',
    TBaseObservable_publish (leaves_on_next 1) 10 0 7
      (mkState (after three_observers) []) = Ret tt s' /\
    trace s' = [CallNext 1 7; CallNext 3 7] /\
    arr (heap s') (ObserversOf 0) = [2; 3].
Proof.
  split; [vm_compute; reflexivity |].
  eexists. split; [vm_compute; reflexivity |].
  split; vm_compute; reflexivity.
Qed.

(** C5, on the code: observers [1], [2] and [3] subscribed themselves
    and keep the [complete()] of [TAbstractObserver], which
    unsubscribes.  [complete()] of the observable reaches [1] and [3]
    only; the collection is empty afterwards. *)
Theorem complete_skips_peer_of_unsubscribing_receiver :
  arr (after three_observers) (ObserversOf 0) = [1; 2; 3] /\
  exists s',
    TBaseObservable_complete (T := nat) default_complete 10 0
      (mkState (after three_observers) []) = Ret tt s' /\
    trace s' = [CallComplete 1; CallComplete 3] /\
    arr (heap s') (ObserversOf 0) = [].
Proof.
  split; [vm_compute; reflexivity |].
  eexists. split; [vm_compute; reflexivity |].
  split; vm_compute; reflexivity.
Qed.

(** C7: a [next] that throws during the fan-out of
    [TBaseObservable.publish] or of [TBaseMediator.next] is not
    caught.  Wherever the pass stands when the call throws, the
    fan-out ends with that exception, in the state in which it was
    thrown: the call that threw is the last one made, and the
    receivers not yet visited are not called. *)
Theorem receiver_exception_aborts_fan_out {T Payload : Type} (cb : Callbacks T)
    (cls : ObjId -> Class) (mcb : Callbacks (Topic * Payload)) :
  (forall fuel this v s0 index s x e h',
     for_of_reaches (ObserversOf this) (fun o => call_next cb o v) s0 index s ->
     arr (heap s) (ObserversOf this) !! index = Some x ->
     on_next cb x v (heap s) = Exc e h' ->
     index < fuel ->
     TBaseObservable_publish cb fuel this v s0
     = Exc e (mkState h' (trace s ++ [CallNext x v]))) /\
  (forall this sender topic payload s0 k s x e h',
     forEach_reaches (ObserversOf this) (route cls mcb sender topic payload) s0 k s ->
     k < length (arr (heap s0) (ObserversOf this)) ->
     arr (heap s) (ObserversOf this) !! k = Some x ->
     eligible cls sender topic x ->
     on_next mcb x (topic, payload) (heap s) = Exc e h' ->
     TBaseMediator_next cls mcb this (sender, topic, payload) s0
     = Exc e (mkState h' (trace s ++ [CallNext x (topic, payload)]))).
Proof.
  split.
  - intros fuel this v s0 index s x e h' Hreach Hx Hexc Hfuel.
    unfold TBaseObservable_publish.
    eapply for_of_throw; [exact Hreach | exact Hx | | exact Hfuel].
    unfold call_next, invoke. by rewrite Hexc.
  - intros this sender topic payload s0 k s x e h' Hreach Hk Hx He Hexc.
    unfold TBaseMediator_next.
    eapply forEach_throw; [exact Hreach | exact Hk | exact Hx |].
    rewrite route_guarded, decide_True by done.
    unfold invoke. by rewrite Hexc.
Qed.

(** C7 at work: the second receiver throws, the third and fourth are
    not called. *)
Lemma receiver_exception_aborts_fan_out_witness :
  TBaseObservable_publish (throws_on_next 2 "boom") 10 0 7
    (mkState (after three_observers) [])
  = Exc "boom" (mkState (after three_observers) ([CallNext 1 7] ++ [CallNext 2 7])) /\
  TBaseMediator_next cast (throws_on_next 2 "boom") 0 (30, "A", 7)
    (mkState (after four_receivers) [])
  = Exc "boom" (mkState (after four_receivers)
                  ([CallNext 1 ("A", 7)] ++ [CallNext 2 ("A", 7)])).
Proof.
  pose proof (receiver_exception_aborts_fan_out (T := nat) (Payload := nat)
                (throws_on_next 2 "boom") cast (throws_on_next 2 "boom")) as [Hp Hn].
  split.
  - apply (Hp 10 0 7 (mkState (after three_observers) []) 1
             (mkState (after three_observers) [CallNext 1 7]) 2 "boom").
    + eapply for_of_next; [apply for_of_start | |]; vm_compute; reflexivity.
    + vm_compute; reflexivity.
    + vm_compute; reflexivity.
    + lia.
  - apply (Hn 0 30 "A" 7 (mkState (after four_receivers) []) 1
             (mkState (after four_receivers) [CallNext 1 ("A", 7)]) 2 "boom").
    + eapply forEach_call; [apply forEach_start | |]; vm_compute; reflexivity.
    + vm_compute. lia.
    + vm_compute; reflexivity.
    + vm_compute. apply list_elem_of_here.
    + vm_compute; reflexivity.
Defined.

(** ** Disposal *)

(** C6 (amended): [dispose()] never raises.  When the receiver is not
    in the collection, as after [complete()] emptied it, [dispose()]
    changes nothing.  When the collection holds the receiver at most
    once, a second [dispose()] changes nothing and a later [publish]
    does not call the receiver's [next], as long as no callback
    registers it again. *)
Theorem dispose_never_raises_and_revokes {T : Type} (cb : Callbacks T) :
  (forall d h, exists h', dispose d h = Ret tt h') /\
  (forall a x h, x ∉ arr h a -> TSubscription_dispose a x h = Ret tt h) /\
  (forall fuel this x s s',
     TBaseObservable_complete cb fuel this s = Ret tt s' ->
     TSubscription_dispose (ObserversOf this) x (heap s') = Ret tt (heap s')) /\
  (forall this x h,
     occurrences x (arr h (ObserversOf this)) <= 1 ->
     exists h',
       TSubscription_dispose (ObserversOf this) x h = Ret tt h' /\
       TSubscription_dispose (ObserversOf this) x h' = Ret tt h' /\
       forall fuel v tr s',
         (forall o, keeps_out (ObserversOf this) x (on_next cb o v)) ->
         final (TBaseObservable_publish cb fuel this v (mkState h' tr)) = Some s' ->
         next_calls x (trace s') = next_calls x tr).
Proof.
  split; [exact dispose_returns |].
  split; [exact TSubscription_dispose_absent |].
  split.
  - intros fuel this x s s' Hc. apply TSubscription_dispose_absent.
    rewrite (complete_clears cb fuel this s s' Hc). apply not_elem_of_nil.
  - intros this x h Hocc.
    destruct (TSubscription_dispose_spec (ObserversOf this) x h)
      as (h' & Hd & Hocc' & _).
    assert (x ∉ arr h' (ObserversOf this)) as Hgone.
    { apply occurrences_0. rewrite Hocc', decide_True by done. lia. }
    exists h'. split; [done |].
    split; [by apply TSubscription_dispose_absent |].
    intros fuel v tr s' Hkeep Hfinal.
    by destruct (publish_not_registered cb fuel this v x (mkState h' tr) s'
                   Hkeep Hgone Hfinal).
Qed.

(** C6 at work: observer [1] of three disposes its subscription. *)
Lemma dispose_never_raises_and_revokes_witness :
  exists h',
    TSubscription_dispose (ObserversOf 0) 1 (after three_observers) = Ret tt h' /\
    TSubscription_dispose (ObserversOf 0) 1 h' = Ret tt h' /\
    forall fuel (v : nat) tr s',
      (forall o, keeps_out (ObserversOf 0) 1 (on_next silent o v)) ->
      final (TBaseObservable_publish silent fuel 0 v (mkState h' tr)) = Some s' ->
      next_calls 1 (trace s') = next_calls 1 tr.
Proof.
  apply (proj2 (proj2 (proj2 (dispose_never_raises_and_revokes (T := nat) silent)))
           0 1 (after three_observers)).
  vm_compute. lia.
Defined.

(** C6, as stated, fails: receiver [1] was subscribed twice to the
    observable [0], which does not check for duplicates.  After the
    first subscription is disposed, [publish] still calls the
    receiver, and a second [dispose()] is not a no-op. *)
Lemma dispose_leaves_second_registration :
  exists d h h2 s',
    subscribed_twice empty_heap = Ret d h /\
    dispose d h = Ret tt h2 /\
    TBaseObservable_publish silent 10 0 7 (mkState h2 []) = Ret tt s' /\
    trace s' = [CallNext 1 7] /\
    dispose d h2 <> Ret tt h2.
Proof.
  eexists _, _, _, _.
  split; [vm_compute; reflexivity |].
  split; [vm_compute; reflexivity |].
  split; [vm_compute; reflexivity |].
  split; [vm_compute; reflexivity |].
  vm_compute. intros [=].
Qed.

(** C10: when [onDispose] raises, [dispose()] still marks the instance
    disposed: the exception reaches the caller, [isDisposed] is true
    afterwards, and a further [dispose()] returns at once, the hook not
    being entered again. *)
Theorem dispose_marks_disposed_when_hook_raises {F : Type}
    (onDispose : Comp (DisposableObj F) unit) s e o :
  AbstractDisposable_isDisposed s = false ->
  onDispose (instance s) = Exc e o ->
  exists s',
    AbstractDisposable_dispose onDispose s = Exc e s' /\
    AbstractDisposable_isDisposed s' = true /\
    onDispose_calls s' = S (onDispose_calls s) /\
    AbstractDisposable_dispose onDispose s' = Ret tt s'.
Proof.
  intros Hlive Hexc.
  exists (mark_disposed (mkDisposableState o (S (onDispose_calls s)))).
  unfold AbstractDisposable_dispose at 1.
  rewrite Hlive. unfold try_finally, call_onDispose. rewrite Hexc.
  repeat split.
Qed.

(** C10 at work. *)
Lemma dispose_marks_disposed_when_hook_raises_witness :
  exists s',
    AbstractDisposable_dispose failing_hook fresh_disposable = Exc "dispose failed" s' /\
    AbstractDisposable_isDisposed s' = true /\
    onDispose_calls s' = S (onDispose_calls fresh_disposable) /\
    AbstractDisposable_dispose failing_hook s' = Ret tt s'.
Proof.
  apply (dispose_marks_disposed_when_hook_raises failing_hook fresh_disposable
           "dispose failed" (mkDisposableObj false 0)); reflexivity.
Defined.

(** ** The embedding against the repository's tests *)

(** The assertions on [isDisposed] of [observer/module.test.ts]: false
    while any tracker is registered, true once the last one left. *)
Example observer_test_isDisposed :
  exists h,
    observer_test_flags empty_heap
    = Ret [[false; false; false]; [false; false; false];
           [false; false; false]; [true; true; true]] h.
Proof. eexists. vm_compute. reflexivity. Qed.

(** The deliveries of the same test: trackers [2] and [3], then [3],
    then no one. *)
Example observer_test_locations :
  exists s,
    observer_test_deliveries (mkState empty_heap []) = Ret tt s /\
    trace s = [CallNext 2 1; CallNext 3 1; CallNext 3 2].
Proof. eexists. split; vm_compute; reflexivity. Qed.

(** The calls that [mediator/module.test.ts] counts for the two
    messages sent by participants. *)
Example mediator_test_calls :
  exists s,
    mediator_test_deliveries (mkState empty_heap []) = Ret tt s /\
    trace s =
      [CallIntake 0 101 ("TopicA", 1);
       CallNext 2 ("TopicA", 1); CallNext 3 ("TopicA", 1); CallNext 4 ("TopicA", 1);
       CallNext 5 ("TopicA", 1); CallNext 6 ("TopicA", 1); CallNext 7 ("TopicA", 1);
       CallIntake 0 102 ("TopicB", 2);
       CallNext 1 ("TopicB", 2); CallNext 3 ("TopicB", 2); CallNext 4 ("TopicB", 2);
       CallNext 5 ("TopicB", 2); CallNext 7 ("TopicB", 2)].
Proof. eexists. split; vm_compute; reflexivity. Qed.

(** The three assertions of "should not duplicate participants", and
    the participant publishing to no mediator afterwards. *)
Example mediator_test_isDisposed :
  exists h s,
    mediator_test_flags empty_heap = Ret [false; false; true] h /\
    TAbstractParticipant_publish test_cast silent 1 ("TopicA", 1) (mkState h [])
    = Ret tt s /\
    trace s = [].
Proof. eexists _, _. split; [| split]; vm_compute; reflexivity. Qed.

(** ** Duplicate-free arrays *)

(** The two [subscribe] of the mediator layer never create a duplicate,
    in any array. *)
Lemma subscribe_duplicate_free cls fuel :
  (forall this observer h d h',
     TBaseMediator_subscribe cls fuel this observer h = Ret d h' ->
     duplicate_free h -> duplicate_free h') /\
  (forall this mediator h d h',
     TAbstractParticipant_subscribe cls fuel this mediator h = Ret d h' ->
     duplicate_free h -> duplicate_free h').
Proof.
  induction fuel as [|fuel [IHm IHp]]; [by split |].
  assert (forall a x h, includes x (arr h a) = false ->
            set_arr a (push x (arr h a)) h = register a x h) as Hreg.
  { intros a x h E. unfold register. by rewrite E. }
  split.
  - intros this observer h d h'. cbn [TBaseMediator_subscribe].
    pose (ps := match cls observer with
                | CMediator => TBaseMediator_subscribe cls fuel observer this
                | _ => TAbstractParticipant_subscribe cls fuel observer this
                end).
    fold ps.
    assert (forall h1 d1 h1',
              ps h1 = Ret d1 h1' -> duplicate_free h1 -> duplicate_free h1') as IH.
    { intros h1 d1 h1'. unfold ps. destruct (cls observer); [apply IHp .. | apply IHm]. }
    destruct (includes observer (arr h (ObserversOf this))) eqn:E; cbn [negb].
    + destruct (has_subscribe_and_publish (cls observer)); [| by intros [= _ <-]].
      unfold bind, ret. destruct (ps h) as [d1 h1| |] eqn:Es; [| done | done].
      intros [= _ <-]. by eapply IH.
    + rewrite Hreg by done. intros Hs Hh.
      apply (register_duplicate_free (ObserversOf this) observer) in Hh.
      destruct (has_subscribe_and_publish (cls observer)).
      * by eapply IH.
      * by injection Hs as _ <-.
  - intros this mediator h d h'. cbn [TAbstractParticipant_subscribe].
    destruct (includes mediator (arr h (MediatorsOf this))) eqn:E; cbn [negb].
    + by intros [= _ <-].
    + rewrite Hreg by done. unfold bind, ret.
      destruct (TBaseMediator_subscribe _ _ _ _ _) eqn:Es; [| done | done].
      intros [= _ <-] Hh. eapply IHm; [exact Es |].
      by apply register_duplicate_free.
Qed.

(** Neither does [dispose]. *)
Lemma dispose_duplicate_free d h h' :
  dispose d h = Ret tt h' -> duplicate_free h -> duplicate_free h'.
Proof.
  revert h h'. induction d as [a x | l IHl d IHd]; intros h h'; simpl.
  - destruct (TSubscription_dispose_spec a x h) as (h1 & -> & Hocc & Hframe & _).
    intros [= <-] Hh b y. destruct (decide (a = b)) as [<-|Hne].
    + rewrite Hocc. specialize (Hh a y). lia.
    + rewrite Hframe by done. apply Hh.
  - unfold bind. destruct (dispose l h) as [[] h1| |] eqn:El; [| done | done].
    intros Hd Hh. eapply IHd; [exact Hd |]. by eapply IHl.
Qed.

(** [TBaseObservable.subscribe] has no such check. *)
Lemma observable_subscribe_duplicates :
  exists d h, subscribed_twice empty_heap = Ret d h /\
    occurrences 1 (arr h (ObserversOf 0)) = 2.
Proof. eexists _, _. split; vm_compute; reflexivity. Qed.

(** * Further properties of the code *)

(** ** dispose and using *)

Section DisposalProps.
Context {St : Type} (truthy : Exn -> bool).
Implicit Types (d : Comp St unit) (ds : list (Comp St unit)).

Lemma disposeInternal_from_acc ds acc s :
  disposeInternal_from truthy ds acc s
  = (r <- disposeInternal_from truthy ds [] ;; ret (acc ++ r)) s.
Proof.
  revert acc s. induction ds as [|d ds IH]; intros acc s; simpl.
  - unfold bind, ret. by rewrite app_nil_r.
  - unfold bind, disposeInternalOne.
    destruct (d s) as [[] s1|e s1|]; [| | done].
    + rewrite (IH acc s1). done.
    + rewrite (IH (if truthy e then push e acc else acc) s1).
      rewrite (IH (if truthy e then push e [] else []) s1).
      unfold bind, ret, push.
      destruct (disposeInternal_from truthy ds [] s1) as [r s2| |]; [| done | done].
      destruct (truthy e); simpl; [by rewrite <- app_assoc | done].
Qed.

Lemma disposeInternal_from_app ds1 ds2 acc s :
  disposeInternal_from truthy (ds1 ++ ds2) acc s
  = (acc1 <- disposeInternal_from truthy ds1 acc ;;
     disposeInternal_from truthy ds2 acc1) s.
Proof.
  revert acc s. induction ds1 as [|d ds1 IH]; intros acc s; simpl; [done |].
  unfold bind. destruct (disposeInternalOne d s) as [ex s1| |]; [| done | done].
  rewrite IH. done.
Qed.

Lemma disposeInternal_from_no_throw ds acc s e s' :
  disposeInternal_from truthy ds acc s <> Exc e s'.
Proof.
  revert acc s. induction ds as [|d ds IH]; intros acc s; simpl; [done |].
  unfold bind, disposeInternalOne. destruct (d s) as [[] s1|e1 s1|]; [| | done]; apply IH.
Qed.

(** X1: [dispose(...disposables)] never throws.  A batch is disposed
    as its two halves one after the other, the second whether or not
    the first met failures, and the exceptions of both are returned
    together, [undefined] standing for none; a single disposable
    that throws yields that exception alone, unless the thrown value
    is falsy, which is dropped. *)
Theorem dispose_collects_and_continues ds1 ds2 d s :
  (forall e s', dispose_disposables truthy (ds1 ++ ds2) s <> Exc e s') /\
  dispose_disposables truthy (ds1 ++ ds2) s
  = (r1 <- dispose_disposables truthy ds1 ;;
     r2 <- dispose_disposables truthy ds2 ;;
     ret (merge_exceptions r1 r2)) s /\
  dispose_disposables truthy [d] s
  = match d s with
    | Ret _ s' => Ret None s'
    | Exc e s' => Ret (if truthy e then Some [e] else None) s'
    | Timeout => Timeout
    end /\
  dispose_disposables truthy [] s = Ret None s.
Proof.
  unfold dispose_disposables, disposeInternal.
  split; [| split; [| split]].
  - intros e s'. unfold bind, ret.
    destruct (disposeInternal_from truthy (ds1 ++ ds2) [] s) as [r s1|e1 s1|] eqn:E;
      [done | | done].
    by apply disposeInternal_from_no_throw in E.
  - unfold bind, ret. rewrite disposeInternal_from_app. unfold bind.
    destruct (disposeInternal_from truthy ds1 [] s) as [r1 s1| |]; [| done | done].
    rewrite disposeInternal_from_acc. unfold bind, ret.
    destruct (disposeInternal_from truthy ds2 [] s1) as [r2 s2| |]; [| done | done].
    f_equal. unfold merge_exceptions.
    by destruct r1 as [|e1 r1], r2 as [|e2 r2].
  - simpl. unfold bind, ret, disposeInternalOne.
    destruct (d s) as [[] s1|e s1|]; [done | | done].
    by destruct (truthy e).
  - done.
Qed.

(** X2: [using(disposable, callback)] gives back what the callback
    returns, or throws what it throws, after one call of
    [disposable.dispose()] in either case; what that call throws never
    reaches the caller. *)
Theorem using_swallows_disposal_failure {R : Type} d (callback : Comp St R) s :
  using_disposable truthy d callback s
  = match callback s with
    | Ret r s1 =>
        match final (d s1) with
        | Some s2 => Ret r s2
        | None => Timeout
        end
    | Exc e s1 =>
        match final (d s1) with
        | Some s2 => Exc e s2
        | None => Timeout
        end
    | Timeout => Timeout
    end.
Proof.
  unfold using_disposable, try_finally_do, dispose_disposables, disposeInternal.
  simpl. unfold bind, ret, disposeInternalOne.
  destruct (callback s) as [r s1|e s1|]; [| | done];
    by destruct (d s1) as [[] s2|e2 s2|].
Qed.

End DisposalProps.

(** ** The exception of a disposed object *)

Lemma truthy_string_true s : truthy_string s = true <-> s <> "".
Proof.
  unfold truthy_string. rewrite negb_true_iff. apply String.eqb_neq.
Qed.

Lemma truthy_string_false s : truthy_string s = false <-> s = "".
Proof.
  unfold truthy_string. rewrite negb_false_iff. apply String.eqb_eq.
Qed.

Lemma createMessageFromData_nonempty objectName :
  createMessageFromData objectName <> "".
Proof.
  unfold createMessageFromData. destruct objectName as [name|]; [| done].
  by destruct (truthy_string name).
Qed.

(** The constructor, case by case. *)
Lemma new_ObjectDisposedException_spec messageOrData data :
  let exception := new_ObjectDisposedException messageOrData data in
  exception_message exception <> "" /\
  exception_code exception = 64 /\
  (forall m, messageOrData = Some (IsMessage m) -> m <> "" ->
     exception_message exception = m /\
     exception_objectName exception = default None data) /\
  (forall name, messageOrData = Some (IsData (Some name)) -> name <> "" ->
     exception_message exception
     = "An operation was attempted on a disposed object, " +:+ name +:+ "." /\
     exception_objectName exception = Some name) /\
  (messageOrData = None \/ messageOrData = Some (IsMessage "") ->
     exception_message exception = DEFAULT_MESSAGE).
Proof.
  unfold new_ObjectDisposedException. simpl.
  split; [| split; [| split; [| split]]].
  - destruct messageOrData as [[m|d]|]; simpl.
    + destruct (truthy_string m) eqn:E; [by apply truthy_string_true | done].
    + destruct (truthy_string (createMessageFromData d)) eqn:E; [| done].
      by apply truthy_string_true.
    + done.
  - by destruct messageOrData as [[m|d]|].
  - intros m -> Hm. simpl. by rewrite (proj2 (truthy_string_true m) Hm).
  - intros name -> Hname. simpl.
    by rewrite (proj2 (truthy_string_true name) Hname).
  - by intros [-> | ->].
Qed.

(** X3: the message of an [ObjectDisposedException] is never empty and
    its code is 64.  A message that is given and not empty is kept as
    it is; data with a name and no message give the message that
    names the object; no argument, or an empty message, gives the
    default message. *)
Theorem ObjectDisposedException_message messageOrData data :
  let exception := new_ObjectDisposedException messageOrData data in
  exception_message exception <> "" /\
  exception_code exception = 64 /\
  (forall m, messageOrData = Some (IsMessage m) -> m <> "" ->
     exception_message exception = m /\
     exception_objectName exception = default None data) /\
  (forall name, messageOrData = Some (IsData (Some name)) -> name <> "" ->
     exception_message exception
     = "An operation was attempted on a disposed object, " +:+ name +:+ "." /\
     exception_objectName exception = Some name) /\
  (messageOrData = None \/ messageOrData = Some (IsMessage "") ->
     exception_message exception = DEFAULT_MESSAGE).
Proof. apply new_ObjectDisposedException_spec. Qed.

(** X3 at work. *)
Lemma ObjectDisposedException_message_witness :
  exception_message (new_ObjectDisposedException (Some (IsMessage "gone")) None) = "gone" /\
  exception_message (new_ObjectDisposedException (Some (IsData (Some "Pool"))) None)
  = "An operation was attempted on a disposed object, Pool." /\
  exception_message (new_ObjectDisposedException None None) = DEFAULT_MESSAGE.
Proof.
  split; [| split].
  - destruct (ObjectDisposedException_message (Some (IsMessage "gone")) None)
      as (_ & _ & Hm & _).
    by apply (Hm "gone").
  - destruct (ObjectDisposedException_message (Some (IsData (Some "Pool"))) None)
      as (_ & _ & _ & Hd & _).
    by apply (Hd "Pool").
  - destruct (ObjectDisposedException_message None None) as (_ & _ & _ & _ & Hn).
    apply Hn. by left.
Defined.

(** X4: [assertNotDisposed] returns when the object is not disposed and
    changes nothing.  When it is disposed the function throws, with the
    caller's message if one is given and not empty, and otherwise with
    the message that names the class of the object. *)
Theorem assertNotDisposed_throws_iff_disposed {St : Type} isDisposed objectName
    message (s : St) :
  (isDisposed = false -> assertNotDisposed isDisposed objectName message s = Ret tt s) /\
  (isDisposed = true ->
   exists e, assertNotDisposed isDisposed objectName message s = Exc e s /\
     e <> "" /\
     (forall m, message = Some m -> m <> "" -> e = m) /\
     (message = None \/ message = Some "" -> objectName <> "" ->
      e = "An operation was attempted on a disposed object, " +:+ objectName +:+ ".")).
Proof.
  split; [by intros -> |]. intros ->. unfold assertNotDisposed, throw.
  eexists. split; [reflexivity |]. split; [| split].
  - destruct message as [m|]; [destruct (truthy_string m) |];
      apply new_ObjectDisposedException_spec.
  - intros m -> Hm. rewrite (proj2 (truthy_string_true m) Hm).
    by apply (new_ObjectDisposedException_spec (Some (IsMessage m))).
  - intros Hmessage Hname.
    assert (exception_message
              (new_ObjectDisposedException (Some (IsData (Some objectName))) None)
            = "An operation was attempted on a disposed object, " +:+ objectName +:+ ".")
      as Hdata by by apply (new_ObjectDisposedException_spec _ None).
    by destruct Hmessage as [-> | ->].
Qed.

(** X4 at work. *)
Lemma assertNotDisposed_throws_iff_disposed_witness :
  assertNotDisposed false "Pool" None tt = Ret tt tt /\
  exists e, assertNotDisposed true "Pool" (Some "closed") tt = Exc e tt /\ e = "closed".
Proof.
  destruct (assertNotDisposed_throws_iff_disposed false "Pool" None tt) as [Hlive _].
  destruct (assertNotDisposed_throws_iff_disposed true "Pool" (Some "closed") tt)
    as [_ Hdisposed].
  split; [by apply Hlive |].
  destruct (Hdisposed eq_refl) as (e & He & _ & Hm & _).
  exists e. split; [done |]. by apply Hm.
Defined.

(** ** DisposablePool *)

Section PoolProps.
Context {W : Type} (truthy : Exn -> bool) (className : string)
  (resource_dispose : string -> Comp W unit).
Implicit Types (keys : list string) (w : W) (s : DisposableState (PoolFields W)).

Lemma forEach_fresh_attempt keys flag disposables w :
  forEach_fresh keys (fun key =>
    in_world (dispose_disposables truthy [resource_dispose key]) ;;; ret tt)
    (mkDisposableObj flag (mkPoolFields disposables w))
  = match attempt_all resource_dispose keys w with
    | Some w' => Ret tt (mkDisposableObj flag (mkPoolFields disposables w'))
    | None => Timeout
    end.
Proof.
  revert w. induction keys as [|key keys IH]; intros w; [done |].
  cbn [forEach_fresh attempt_all].
  unfold bind at 1 2, in_world, dispose_disposables, disposeInternal. simpl.
  unfold bind, ret, disposeInternalOne.
  destruct (resource_dispose key w) as [[] w1|e w1|]; simpl; [| | done].
  - apply IH.
  - destruct (truthy e); apply IH.
Qed.

Lemma onDispose_live disposables w :
  DisposablePool_onDispose truthy className resource_dispose
    (mkDisposableObj false (mkPoolFields disposables w))
  = match attempt_all resource_dispose (default [] disposables) w with
    | Some w' => Ret tt (mkDisposableObj false (mkPoolFields None w'))
    | None => Timeout
    end.
Proof.
  unfold DisposablePool_onDispose, bind at 1 2. simpl.
  unfold DisposablePool_resources, bind. simpl.
  destruct disposables as [keys|]; simpl; [| done].
  rewrite forEach_fresh_attempt.
  by destruct (attempt_all resource_dispose keys w).
Qed.

Lemma pool_dispose_live_aux keys w w' n :
  attempt_all resource_dispose keys w = Some w' ->
  DisposablePool_dispose truthy className resource_dispose
    (mkDisposableState (mkDisposableObj false (mkPoolFields (Some keys) w)) n)
  = Ret tt (mkDisposableState (mkDisposableObj true (mkPoolFields None w')) (S n)).
Proof.
  intros Hw. unfold DisposablePool_dispose, AbstractDisposable_dispose. simpl.
  unfold try_finally, call_onDispose. simpl.
  rewrite onDispose_live. simpl. by rewrite Hw.
Qed.

(** X5: [dispose()] of a pool calls [dispose()] once on every resource,
    in the order of the keys and whether or not an earlier one threw,
    does not throw itself, and leaves the pool disposed with
    [resources] undefined.  A second [dispose()] touches neither the
    pool nor any resource. *)
Theorem pool_dispose_disposes_each_resource_once keys w w' n :
  attempt_all resource_dispose keys w = Some w' ->
  let s := mkDisposableState (mkDisposableObj false (mkPoolFields (Some keys) w)) n in
  let s' := mkDisposableState (mkDisposableObj true (mkPoolFields None w')) (S n) in
  DisposablePool_dispose truthy className resource_dispose s = Ret tt s' /\
  DisposablePool_resources (instance s') = None /\
  DisposablePool_dispose truthy className resource_dispose s' = Ret tt s'.
Proof.
  intros Hw. simpl. split; [| done]. by apply pool_dispose_live_aux.
Qed.

(** X6: [use(callback)] on a pool that is not disposed runs the
    callback on the resources and then disposes the pool and, once each
    and in the order of the keys, the resources, whether the callback
    returns or throws; what the callback throws reaches the caller,
    what a resource throws on disposal does not.  The callback is taken
    to leave the pool's own fields alone. *)
Theorem pool_use_disposes_after_callback callback keys w n s1 w1 w2 :
  let s := mkDisposableState (mkDisposableObj false (mkPoolFields (Some keys) w)) n in
  final (callback keys s) = Some s1 ->
  instance s1 = mkDisposableObj false (mkPoolFields (Some keys) w1) ->
  attempt_all resource_dispose keys w1 = Some w2 ->
  let s2 := mkDisposableState (mkDisposableObj true (mkPoolFields None w2))
              (S (onDispose_calls s1)) in
  DisposablePool_use truthy className resource_dispose callback s
  = match callback keys s with
    | Ret r _ => Ret r s2
    | Exc e _ => Exc e s2
    | Timeout => Timeout
    end.
Proof.
  intros s Hfinal Hinstance Hw s2.
  assert (DisposablePool_dispose truthy className resource_dispose s1 = Ret tt s2)
    as Hdispose.
  { destruct s1 as [o n1]. simpl in Hinstance. subst o.
    by apply (pool_dispose_live_aux keys w1 w2 n1). }
  unfold DisposablePool_use, bind. simpl. unfold try_finally_do.
  unfold DisposablePool_resources. simpl.
  destruct (callback keys s) as [r s1'|e s1'|]; simpl in Hfinal; [| | done];
    injection Hfinal as ->; by rewrite Hdispose.
Qed.

(** X7: a pool is used once.  [use] on a disposed pool throws the
    exception of a disposed object without running the callback or
    touching anything, and however a call of [use] ends, the pool is
    disposed afterwards, so that every later [use] throws. *)
Theorem pool_single_use callback callback' s :
  (AbstractDisposable_isDisposed s = true ->
   exists e, DisposablePool_use truthy className resource_dispose callback s = Exc e s) /\
  (forall s',
     final (DisposablePool_use truthy className resource_dispose callback s) = Some s' ->
     AbstractDisposable_isDisposed s' = true /\
     exists e, DisposablePool_use truthy className resource_dispose callback' s'
               = Exc e s').
Proof.
  assert (forall cb s0, AbstractDisposable_isDisposed s0 = true ->
            exists e, DisposablePool_use truthy className resource_dispose cb s0
                      = Exc e s0) as Hdisposed.
  { intros cb s0 H0. unfold DisposablePool_use, bind, assertNotDisposed.
    rewrite H0. by eexists. }
  split; [apply Hdisposed |]. intros s' Hfinal.
  assert (AbstractDisposable_isDisposed s' = true) as Hs'; [| by auto].
  revert Hfinal. unfold DisposablePool_use, bind, assertNotDisposed.
  destruct (AbstractDisposable_isDisposed s) eqn:Es; simpl; [by intros [= <-] |].
  unfold try_finally_do, DisposablePool_dispose, AbstractDisposable_dispose.
  set (body := match DisposablePool_resources (instance s) with
               | Some keys => callback keys
               | None => ret tt
               end).
  assert (forall s1 s2,
            final ((if AbstractDisposable_isDisposed s1 then Ret tt s1
                    else try_finally
                           (call_onDispose
                              (DisposablePool_onDispose truthy className resource_dispose))
                           mark_disposed s1) : Outcome _ unit) = Some s2 ->
            AbstractDisposable_isDisposed s2 = true) as Hfin.
  { intros s1 s2. destruct (AbstractDisposable_isDisposed s1) eqn:E1; simpl.
    - by intros [= <-].
    - unfold try_finally. destruct (call_onDispose _ s1); simpl; [| | done];
        by intros [= <-]. }
  destruct (body s) as [r s1|e s1|]; [| | done].
  - specialize (Hfin s1).
    destruct (if AbstractDisposable_isDisposed s1 then _ else _) as [[] s2|e2 s2|];
      simpl in *; [| | done]; intros [= <-]; by apply Hfin.
  - specialize (Hfin s1).
    destruct (if AbstractDisposable_isDisposed s1 then _ else _) as [[] s2|e2 s2|];
      simpl in *; [| | done]; intros [= <-]; by apply Hfin.
Qed.

End PoolProps.

(** X5 at work: the three counting resources, of which [b] throws. *)
Lemma pool_dispose_disposes_each_resource_once_witness :
  let s' := mkDisposableState
              (mkDisposableObj true (mkPoolFields None ["a"; "b"; "c"])) 1 in
  DisposablePool_dispose all_truthy "DisposablePool" counting_resource fresh_pool
  = Ret tt s' /\
  DisposablePool_resources (instance s') = None /\
  DisposablePool_dispose all_truthy "DisposablePool" counting_resource s' = Ret tt s'.
Proof.
  apply (pool_dispose_disposes_each_resource_once all_truthy "DisposablePool"
           counting_resource ["a"; "b"; "c"] [] ["a"; "b"; "c"] 0).
  reflexivity.
Defined.

(** X6 at work: the callback throws, the resources are disposed all the
    same. *)
Lemma pool_use_disposes_after_callback_witness :
  DisposablePool_use all_truthy "DisposablePool" counting_resource
    (fun _ => throw "callback failed") fresh_pool
  = Exc "callback failed"
      (mkDisposableState (mkDisposableObj true (mkPoolFields None ["a"; "b"; "c"])) 1).
Proof.
  apply (pool_use_disposes_after_callback all_truthy "DisposablePool"
           counting_resource (fun _ => throw "callback failed")
           ["a"; "b"; "c"] [] 0 fresh_pool [] ["a"; "b"; "c"]); reflexivity.
Defined.

(** X7 at work. *)
Lemma pool_single_use_witness :
  exists s',
    DisposablePool_use all_truthy "DisposablePool" counting_resource
      (fun _ => ret tt) fresh_pool = Ret tt s' /\
    AbstractDisposable_isDisposed s' = true /\
    exists e, DisposablePool_use all_truthy "DisposablePool" counting_resource
                (fun _ => ret tt) s' = Exc e s'.
Proof.
  eexists. split; [vm_compute; reflexivity |].
  apply (pool_single_use all_truthy "DisposablePool" counting_resource
           (fun _ => ret tt) (fun _ => ret tt) fresh_pool).
  vm_compute. reflexivity.
Defined.

(** ** AbstractDisposable, whatever the hook does *)



(** ** The observer channel *)

Section MoreArrays.
Context `{EqDecision A}.
Implicit Types (x y : A) (l k : list A).

Lemma indexOf_lt x l i : indexOf x l = Some i -> i < length l.
Proof. intros Hi. apply indexOf_Some in Hi. by eapply lookup_lt_Some. Qed.

Lemma indexOf_app_l x l k i : indexOf x l = Some i -> indexOf x (l ++ k) = Some i.
Proof.
  revert i. induction l as [|y l IH]; intros i; simpl; [done |].
  destruct (decide (y = x)); [done |].
  destruct (indexOf x l) as [j|]; simpl; [| done].
  intros [= <-]. by rewrite (IH j).
Qed.

Lemma splice1_app_l l k i : i < length l -> splice1 i (l ++ k) = splice1 i l ++ k.
Proof.
  revert i. induction l as [|y l IH]; intros [|i]; simpl; try lia; [done |].
  intros Hi. rewrite IH; [done | lia].
Qed.

Lemma splice1_last l x : splice1 (length l) (l ++ [x]) = l.
Proof. induction l as [|y l IH]; simpl; [done | by rewrite IH]. Qed.

End MoreArrays.

Lemma arr_set_subscription o d h a : arr (set_subscription o d h) a = arr h a.
Proof. by destruct a. Qed.

(** X9: [observable.subscribe(x)] puts [x] at the end of the collection
    and touches no other array; the subscription it returns does not
    report disposed.  Disposing that subscription gives back the
    collection as it was when [x] was not registered before; when it
    was, the entry that goes is the older one and [x] stays at the
    end. *)
Theorem observable_subscribe_dispose_round_trip E x h :
  let a := ObserversOf E in
  exists h1 h2,
    TBaseObservable_subscribe E x h = Ret (TSubscription a x) h1 /\
    arr h1 a = arr h a ++ [x] /\
    (forall b, b <> a -> arr h1 b = arr h b) /\
    TSubscription_isDisposed a x h1 = false /\
    TSubscription_dispose a x h1 = Ret tt h2 /\
    (x ∉ arr h a -> arr h2 a = arr h a) /\
    (forall i, indexOf x (arr h a) = Some i -> arr h2 a = splice1 i (arr h a) ++ [x]).
Proof.
  intros a. unfold TBaseObservable_subscribe. fold a.
  set (h1 := set_arr a (push x (arr h a)) h).
  assert (arr h1 a = arr h a ++ [x]) as Ha1 by apply arr_set_arr.
  assert (x ∈ arr h1 a) as Hin.
  { rewrite Ha1. apply elem_of_app. right. apply list_elem_of_here. }
  destruct (TSubscription_dispose_present a x h1 Hin) as (j & Hj & Hd).
  eexists h1, _. split; [done |]. split; [done |]. split; [| split; [| split; [done |]]].
  - intros b Hb. by apply arr_set_arr_ne.
  - destruct (TSubscription_isDisposed a x h1) eqn:E1; [| done].
    apply TSubscription_isDisposed_empty in E1. rewrite Ha1 in E1.
    by destruct (arr h a).
  - rewrite arr_set_arr. rewrite Ha1 in Hj |- *. split.
    + intros Hout. rewrite (indexOf_push_absent x _ Hout) in Hj.
      injection Hj as <-. apply splice1_last.
    + intros i Hi. rewrite (indexOf_app_l x _ [x] i Hi) in Hj.
      injection Hj as <-. apply splice1_app_l. by eapply indexOf_lt.
Qed.

Section ObserverChannel.
Context {T : Type} (cb : Callbacks T).
Implicit Types (s : State T).

(** X10: with receivers whose [next] returns and leaves the collection
    alone, [publish(value)] returns after calling [next(value)] on the
    entries of the collection, in insertion order: a receiver is called
    as many times as it is registered, and the collection is
    unchanged. *)
Theorem publish_delivers_in_insertion_order fuel this v s :
  (forall o, o ∈ arr (heap s) (ObserversOf this) ->
             quiet_on (ObserversOf this) (on_next cb o v)) ->
  length (arr (heap s) (ObserversOf this)) <= fuel ->
  exists s',
    TBaseObservable_publish cb fuel this v s = Ret tt s' /\
    trace s' = trace s ++ ((fun o => CallNext o v) <$> arr (heap s) (ObserversOf this)) /\
    arr (heap s') (ObserversOf this) = arr (heap s) (ObserversOf this) /\
    forall x, next_calls x (trace s')
              = next_calls x (trace s) + occurrences x (arr (heap s) (ObserversOf this)).
Proof.
  intros Hq Hfuel.
  destruct (publish_quiet cb fuel this v s Hq Hfuel) as (s' & Hs' & Htr & Ha).
  exists s'. repeat split; try done.
  intros x. by rewrite Htr, next_calls_app, next_calls_fmap.
Qed.

(** X11: with receivers whose [error] returns and leaves the collection
    alone, [onError(error)] calls [error(error)] on every entry in
    insertion order and, unlike [complete()], leaves every receiver
    registered. *)
Theorem onError_delivers_and_keeps_receivers fuel this e s :
  (forall o, o ∈ arr (heap s) (ObserversOf this) ->
             quiet_on (ObserversOf this) (on_error cb o e)) ->
  length (arr (heap s) (ObserversOf this)) <= fuel ->
  exists s',
    TBaseObservable_onError cb fuel this e s = Ret tt s' /\
    trace s' = trace s ++ ((fun o => CallError o e) <$> arr (heap s) (ObserversOf this)) /\
    arr (heap s') (ObserversOf this) = arr (heap s) (ObserversOf this) /\
    forall x, TSubscription_isDisposed (ObserversOf this) x (heap s')
              = TSubscription_isDisposed (ObserversOf this) x (heap s).
Proof.
  intros Hq Hfuel. unfold TBaseObservable_onError, call_error.
  set (a := ObserversOf this) in *. set (l := arr (heap s) a) in *.
  rewrite (for_of_each a _ l); [| done | | lia].
  - rewrite drop_0.
    destruct (each_invoke_quiet a (fun o => CallError o e) (fun o => on_error cb o e)
                l s Hq) as (s' & Hs' & Htr & Ha).
    exists s'. repeat split; try done.
    intros x. unfold TSubscription_isDisposed. by rewrite Ha.
  - intros x Hx.
    apply (invoke_steady a (fun o => CallError o e) (fun o => on_error cb o e)).
    by apply Hq.
Qed.

(** X12: with receivers whose [complete] returns and leaves the
    collection alone, [complete()] calls [complete()] on every entry in
    insertion order and then empties the collection.  When a call of
    [complete()] throws, the exception reaches the caller and the
    collection is not emptied: it is as the throwing callback left
    it. *)
Theorem complete_clears_unless_interrupted this s0 :
  (forall fuel,
     (forall o, o ∈ arr (heap s0) (ObserversOf this) ->
                quiet_on (ObserversOf this) (on_complete cb o)) ->
     length (arr (heap s0) (ObserversOf this)) <= fuel ->
     exists s',
       TBaseObservable_complete cb fuel this s0 = Ret tt s' /\
       trace s' = trace s0 ++ (CallComplete <$> arr (heap s0) (ObserversOf this)) /\
       arr (heap s') (ObserversOf this) = []) /\
  (forall fuel index s x e h',
     for_of_reaches (ObserversOf this) (call_complete cb) s0 index s ->
     arr (heap s) (ObserversOf this) !! index = Some x ->
     on_complete cb x (heap s) = Exc e h' ->
     index < fuel ->
     exists s',
       TBaseObservable_complete cb fuel this s0 = Exc e s' /\
       trace s' = trace s ++ [CallComplete x] /\
       arr (heap s') (ObserversOf this) = arr h' (ObserversOf this)).
Proof.
  split.
  - intros fuel Hq Hfuel.
    destruct (complete_quiet cb fuel this s0 Hq Hfuel) as (s' & Hs' & Htr & Ha & _).
    by exists s'.
  - intros fuel index s x e h' Hreach Hx Hexc Hfuel.
    exists (mkState h' (trace s ++ [CallComplete x])). split; [| done].
    unfold TBaseObservable_complete, bind.
    rewrite (for_of_throw _ _ _ _ _ x e (mkState h' (trace s ++ [CallComplete x]))
               fuel Hreach Hx); [done | | done].
    unfold call_complete, invoke. by rewrite Hexc.
Qed.

End ObserverChannel.

Lemma silent_quiet_error {T} a o e : quiet_on a (on_error (@silent T) o e).
Proof. intros h. by exists tt, h. Qed.

Lemma silent_quiet_complete {T} a o : quiet_on a (on_complete (@silent T) o).
Proof. intros h. by exists tt, h. Qed.

(** X10 at work. *)
Lemma publish_delivers_in_insertion_order_witness :
  exists s',
    TBaseObservable_publish silent 3 0 7 (mkState (after three_observers) []) = Ret tt s' /\
    trace s' = [] ++ ((fun o => CallNext o 7) <$> arr (after three_observers) (ObserversOf 0)) /\
    arr (heap s') (ObserversOf 0) = arr (after three_observers) (ObserversOf 0) /\
    forall x, next_calls x (trace s')
              = 0 + occurrences x (arr (after three_observers) (ObserversOf 0)).
Proof.
  apply (publish_delivers_in_insertion_order silent 3 0 7
           (mkState (after three_observers) [])).
  - intros o _. apply silent_quiet.
  - vm_compute. lia.
Defined.

(** X11 at work. *)
Lemma onError_delivers_and_keeps_receivers_witness :
  exists s',
    TBaseObservable_onError (T := nat) silent 3 0 "bad"
      (mkState (after three_observers) []) = Ret tt s' /\
    trace s' = [] ++ ((fun o => CallError o "bad")
                        <$> arr (after three_observers) (ObserversOf 0)) /\
    arr (heap s') (ObserversOf 0) = arr (after three_observers) (ObserversOf 0) /\
    forall x, TSubscription_isDisposed (ObserversOf 0) x (heap s')
              = TSubscription_isDisposed (ObserversOf 0) x (after three_observers).
Proof.
  apply (onError_delivers_and_keeps_receivers silent 3 0 "bad"
           (mkState (after three_observers) [])).
  - intros o _. apply silent_quiet_error.
  - vm_compute. lia.
Defined.

(** X9 at work: a first receiver subscribes and leaves again. *)
Lemma observable_subscribe_dispose_round_trip_witness :
  exists h1 h2,
    TBaseObservable_subscribe 0 1 empty_heap = Ret (TSubscription (ObserversOf 0) 1) h1 /\
    TSubscription_dispose (ObserversOf 0) 1 h1 = Ret tt h2 /\
    arr h2 (ObserversOf 0) = arr empty_heap (ObserversOf 0).
Proof.
  destruct (observable_subscribe_dispose_round_trip 0 1 empty_heap)
    as (h1 & h2 & Hs & _ & _ & _ & Hd & Hfresh & _).
  exists h1, h2. split; [exact Hs |]. split; [exact Hd |].
  apply Hfresh. apply includes_false. reflexivity.
Defined.

(** X12 at work: three observers complete; then the second one throws. *)
Lemma complete_clears_unless_interrupted_witness :
  (exists s',
     TBaseObservable_complete (T := nat) silent 3 0
       (mkState (after three_observers) []) = Ret tt s' /\
     trace s' = [] ++ (CallComplete <$> arr (after three_observers) (ObserversOf 0)) /\
     arr (heap s') (ObserversOf 0) = []) /\
  (exists s',
     TBaseObservable_complete (T := nat) (throws_on_complete 2 "boom") 3 0
       (mkState (after three_observers) []) = Exc "boom" s' /\
     trace s' = [CallComplete 1] ++ [CallComplete 2] /\
     arr (heap s') (ObserversOf 0) = arr (after three_observers) (ObserversOf 0)).
Proof.
  split.
  - apply (proj1 (complete_clears_unless_interrupted (T := nat) silent 0
                    (mkState (after three_observers) [])) 3).
    + intros o _. apply silent_quiet_complete.
    + vm_compute. lia.
  - apply (proj2 (complete_clears_unless_interrupted (T := nat)
                    (throws_on_complete 2 "boom") 0
                    (mkState (after three_observers) []))
             3 1 (mkState (after three_observers) [CallComplete 1]) 2 "boom"
             (after three_observers)).
    + eapply for_of_next; [apply for_of_start | |]; vm_compute; reflexivity.
    + vm_compute; reflexivity.
    + vm_compute; reflexivity.
    + lia.
Defined.

(** ** TAbstractObserver *)

Lemma observe_spec o E h :
  observe o E h
  = Ret (TSubscription (ObserversOf E) o)
        (set_subscription o (TSubscription (ObserversOf E) o)
           (set_arr (ObserversOf E) (push o (arr h (ObserversOf E))) h)).
Proof. done. Qed.

(** X13: an observer tracks one subscription.  When it subscribes to a
    second observable, the subscription to the first is replaced, not
    disposed: [unsubscribe()] then takes the observer out of the
    second observable only, and the first keeps delivering to it. *)
Theorem observer_resubscribe_keeps_first_registration o E1 E2 h :
  E1 <> E2 ->
  exists d1 h1 d2 h2 h3,
    observe o E1 h = Ret d1 h1 /\
    observe o E2 h1 = Ret d2 h2 /\
    subscription h2 !! o = Some d2 /\
    d2 = TSubscription (ObserversOf E2) o /\
    TAbstractObserver_unsubscribe o h2 = Ret tt h3 /\
    arr h3 (ObserversOf E1) = arr h (ObserversOf E1) ++ [o] /\
    (o ∉ arr h (ObserversOf E2) -> arr h3 (ObserversOf E2) = arr h (ObserversOf E2)).
Proof.
  intros Hne.
  assert (ObserversOf E1 <> ObserversOf E2) as Hne12 by congruence.
  assert (ObserversOf E2 <> ObserversOf E1) as Hne21 by congruence.
  pose (h1 := set_subscription o (TSubscription (ObserversOf E1) o)
                (set_arr (ObserversOf E1) (push o (arr h (ObserversOf E1))) h)).
  pose (h2 := set_subscription o (TSubscription (ObserversOf E2) o)
                (set_arr (ObserversOf E2) (push o (arr h1 (ObserversOf E2))) h1)).
  assert (arr h1 (ObserversOf E1) = arr h (ObserversOf E1) ++ [o]) as H11.
  { unfold h1. by rewrite arr_set_subscription, arr_set_arr. }
  assert (arr h1 (ObserversOf E2) = arr h (ObserversOf E2)) as H12.
  { unfold h1. by rewrite arr_set_subscription, arr_set_arr_ne. }
  assert (arr h2 (ObserversOf E2) = arr h (ObserversOf E2) ++ [o]) as H22.
  { unfold h2. by rewrite arr_set_subscription, arr_set_arr, H12. }
  assert (arr h2 (ObserversOf E1) = arr h (ObserversOf E1) ++ [o]) as H21.
  { unfold h2. by rewrite arr_set_subscription, arr_set_arr_ne, H11. }
  assert (subscription h2 !! o = Some (TSubscription (ObserversOf E2) o)) as Hsub.
  { unfold h2, set_subscription. simpl. apply lookup_insert_eq. }
  destruct (TSubscription_dispose_spec (ObserversOf E2) o h2)
    as (h3 & Hd & _ & Hframe & _).
  exists (TSubscription (ObserversOf E1) o), h1, (TSubscription (ObserversOf E2) o), h2, h3.
  split; [done |]. split; [done |]. split; [done |]. split; [done |].
  split; [| split].
  - unfold TAbstractObserver_unsubscribe. rewrite Hsub. exact Hd.
  - by rewrite Hframe, H21.
  - intros Hout.
    assert (o ∈ arr h2 (ObserversOf E2)) as Hin.
    { rewrite H22. apply elem_of_app. right. apply list_elem_of_here. }
    destruct (TSubscription_dispose_present (ObserversOf E2) o h2 Hin)
      as (j & Hj & Hd').
    rewrite Hd in Hd'. injection Hd' as ->.
    rewrite arr_set_arr. rewrite H22 in Hj |- *.
    rewrite (indexOf_push_absent o _ Hout) in Hj. injection Hj as <-.
    apply splice1_last.
Qed.

(** X13 at work: observer [1] subscribes to the observables [0] and
    [9]. *)
Lemma observer_resubscribe_keeps_first_registration_witness :
  exists d1 h1 d2 h2 h3,
    observe 1 0 empty_heap = Ret d1 h1 /\
    observe 1 9 h1 = Ret d2 h2 /\
    subscription h2 !! 1 = Some d2 /\
    d2 = TSubscription (ObserversOf 9) 1 /\
    TAbstractObserver_unsubscribe 1 h2 = Ret tt h3 /\
    arr h3 (ObserversOf 0) = arr empty_heap (ObserversOf 0) ++ [1] /\
    (1 ∉ arr empty_heap (ObserversOf 9) ->
     arr h3 (ObserversOf 9) = arr empty_heap (ObserversOf 9)).
Proof.
  apply (observer_resubscribe_keeps_first_registration 1 0 9 empty_heap).
  discriminate.
Defined.

(** X14: the inherited [complete()] of an observer, like
    [unsubscribe()], undoes its [subscribe]: an observer that was not
    registered before is gone from the collection, which is as it
    was, and a later [publish] does not call it.  For an observer that
    never subscribed both methods do nothing. *)
Theorem observer_complete_undoes_subscribe {T : Type} (cb : Callbacks T) o E h :
  (subscription h !! o = None ->
   TAbstractObserver_complete o h = Ret tt h /\
   TAbstractObserver_unsubscribe o h = Ret tt h) /\
  (o ∉ arr h (ObserversOf E) ->
   exists d h1 h2,
     observe o E h = Ret d h1 /\
     TAbstractObserver_complete o h1 = Ret tt h2 /\
     arr h2 (ObserversOf E) = arr h (ObserversOf E) /\
     forall fuel v tr s',
       (forall r, keeps_out (ObserversOf E) o (on_next cb r v)) ->
       final (TBaseObservable_publish cb fuel E v (mkState h2 tr)) = Some s' ->
       next_calls o (trace s') = next_calls o tr).
Proof.
  split.
  - intros Hnone. unfold TAbstractObserver_complete, TAbstractObserver_unsubscribe.
    by rewrite Hnone.
  - intros Hout. set (a := ObserversOf E) in *.
    pose (h1 := set_subscription o (TSubscription a o)
                  (set_arr a (push o (arr h a)) h)).
    exists (TSubscription a o), h1.
    assert (arr h1 a = arr h a ++ [o]) as H1.
    { unfold h1. by rewrite arr_set_subscription, arr_set_arr. }
    assert (o ∈ arr h1 a) as Hin.
    { rewrite H1. apply elem_of_app. right. apply list_elem_of_here. }
    destruct (TSubscription_dispose_present a o h1 Hin) as (j & Hj & Hd).
    rewrite H1, (indexOf_push_absent o _ Hout) in Hj. injection Hj as <-.
    eexists. split; [done |].
    assert (arr (set_arr a (splice1 (length (arr h a)) (arr h1 a)) h1) a = arr h a)
      as H2.
    { rewrite arr_set_arr, H1. apply splice1_last. }
    split; [| split; [exact H2 |]].
    + unfold TAbstractObserver_complete, TAbstractObserver_unsubscribe.
      assert (subscription h1 !! o = Some (TSubscription a o)) as ->.
      { unfold h1, set_subscription. simpl. apply lookup_insert_eq. }
      exact Hd.
    + intros fuel v tr s' Hkeep Hfinal.
      refine (proj1 (publish_not_registered cb fuel E v o (mkState _ tr) s'
                       Hkeep _ Hfinal)).
      simpl. fold a. by rewrite H2.
Qed.

(** X14 at work. *)
Lemma observer_complete_undoes_subscribe_witness :
  exists d h1 h2,
    observe 1 0 empty_heap = Ret d h1 /\
    TAbstractObserver_complete 1 h1 = Ret tt h2 /\
    arr h2 (ObserversOf 0) = arr empty_heap (ObserversOf 0) /\
    forall fuel (v : nat) tr s',
      (forall r, keeps_out (ObserversOf 0) 1 (on_next silent r v)) ->
      final (TBaseObservable_publish silent fuel 0 v (mkState h2 tr)) = Some s' ->
      next_calls 1 (trace s') = next_calls 1 tr.
Proof.
  apply (proj2 (observer_complete_undoes_subscribe (T := nat) silent 1 0 empty_heap)).
  apply includes_false. reflexivity.
Defined.

(** ** The mediator and its participants *)

Lemma empty_heap_duplicate_free : duplicate_free empty_heap.
Proof. intros [e|p] x; vm_compute; lia. Qed.

(** X15: the mediator layer never registers anything twice.  Starting
    from arrays without duplicates, of which the empty heap is one,
    [mediator.subscribe], [participant.subscribe] and the [dispose()]
    of the disposables they return leave every array of the heap
    without duplicates. *)
Theorem mediator_layer_keeps_arrays_duplicate_free cls fuel :
  duplicate_free empty_heap /\
  (forall M r h d h',
     TBaseMediator_subscribe cls fuel M r h = Ret d h' ->
     duplicate_free h -> duplicate_free h') /\
  (forall p M h d h',
     TAbstractParticipant_subscribe cls fuel p M h = Ret d h' ->
     duplicate_free h -> duplicate_free h') /\
  (forall d h h', dispose d h = Ret tt h' -> duplicate_free h -> duplicate_free h').
Proof.
  split; [apply empty_heap_duplicate_free |].
  split; [apply (subscribe_duplicate_free cls fuel) |].
  split; [apply (subscribe_duplicate_free cls fuel) |].
  apply dispose_duplicate_free.
Qed.

(** X15 at work: participant [3] subscribes to mediator [0]. *)
Lemma mediator_layer_keeps_arrays_duplicate_free_witness :
  duplicate_free (after (TBaseMediator_subscribe cast 4 0 3)).
Proof.
  destruct (mediator_layer_keeps_arrays_duplicate_free cast 4) as (H0 & Hm & _).
  apply (Hm 0 3 empty_heap (TSubscription (MediatorsOf 3) 0));
    [vm_compute; reflexivity | exact H0].
Defined.

Section Linking.
Context (cls : ObjId -> Class).

(** X16: [mediator.subscribe(participant)] always ends with the link
    in both directions, the participant in the mediator's collection
    and the mediator on the participant's list, and touches no other
    array; it returns the composite disposable exactly when the
    participant was registered already.  [participant.subscribe(mediator)]
    does the same when the mediator is not on its list; when it is,
    the call changes nothing, even if the mediator no longer has the
    participant in its collection. *)
Theorem subscribe_links_both_ways fuel M p h topics participantId :
  cls p = CParticipant topics participantId ->
  (exists d h1,
     TBaseMediator_subscribe cls (4 + fuel) M p h = Ret d h1 /\
     p ∈ arr h1 (ObserversOf M) /\ M ∈ arr h1 (MediatorsOf p) /\
     (forall a, a <> ObserversOf M -> a <> MediatorsOf p -> arr h1 a = arr h a) /\
     (d = Composite (TSubscription (ObserversOf M) p) (TSubscription (MediatorsOf p) M)
      <-> p ∈ arr h (ObserversOf M))) /\
  (M ∉ arr h (MediatorsOf p) ->
   exists h1,
     TAbstractParticipant_subscribe cls (3 + fuel) p M h
     = Ret (TSubscription (MediatorsOf p) M) h1 /\
     p ∈ arr h1 (ObserversOf M) /\ M ∈ arr h1 (MediatorsOf p) /\
     (forall a, a <> ObserversOf M -> a <> MediatorsOf p -> arr h1 a = arr h a)) /\
  (M ∈ arr h (MediatorsOf p) ->
   TAbstractParticipant_subscribe cls (3 + fuel) p M h
   = Ret (TSubscription (MediatorsOf p) M) h).
Proof.
  intros Hp. split; [| split].
  - rewrite (mediator_subscribe_participant cls fuel M p h _ _ Hp).
    eexists _, _. split; [reflexivity |]. split; [| split; [| split]].
    + rewrite arr_register_ne by done. apply register_elem_of.
    + apply register_elem_of.
    + intros a Ha1 Ha2. rewrite !arr_register_ne; congruence.
    + destruct (includes p (arr h (ObserversOf M))) eqn:E.
      * split; [intros _; by apply includes_true | done].
      * split; [done |]. intros Hin. apply includes_true in Hin. congruence.
  - intros Hout. rewrite (participant_subscribe_spec cls fuel p M h _ _ Hp).
    rewrite (proj2 (includes_false M _) Hout).
    eexists. split; [reflexivity |]. split; [| split].
    + apply register_elem_of.
    + rewrite arr_register_ne by done. apply register_elem_of.
    + intros a Ha1 Ha2. rewrite !arr_register_ne; congruence.
  - intros Hin. rewrite (participant_subscribe_spec cls fuel p M h _ _ Hp).
    by rewrite (proj2 (includes_true M _) Hin).
Qed.

(** X17: the composite disposable that [mediator.subscribe] returns for
    a participant already registered does not report disposed at
    first.  Its [dispose()] takes the participant out of the
    mediator's collection and the mediator off the participant's list,
    and touches no other array; it reports disposed afterwards exactly
    when both arrays are empty.  Each array is taken to hold the other
    party at most once, which the mediator layer maintains. *)
Theorem composite_dispose_unlinks_both fuel M p h topics participantId :
  cls p = CParticipant topics participantId ->
  p ∈ arr h (ObserversOf M) ->
  occurrences p (arr h (ObserversOf M)) <= 1 ->
  occurrences M (arr h (MediatorsOf p)) <= 1 ->
  let c := Composite (TSubscription (ObserversOf M) p) (TSubscription (MediatorsOf p) M) in
  exists h1 h2,
    TBaseMediator_subscribe cls (4 + fuel) M p h = Ret c h1 /\
    isDisposed c h1 = false /\
    dispose c h1 = Ret tt h2 /\
    (p ∉ arr h2 (ObserversOf M)) /\
    (M ∉ arr h2 (MediatorsOf p)) /\
    (forall a, a <> ObserversOf M -> a <> MediatorsOf p -> arr h2 a = arr h a) /\
    (isDisposed c h2 = true
     <-> arr h2 (ObserversOf M) = [] /\ arr h2 (MediatorsOf p) = []).
Proof.
  intros Hp Hin Hoccp HoccM c.
  pose proof (mediator_subscribe_participant cls fuel M p h _ _ Hp) as Hs.
  rewrite (proj2 (includes_true p _) Hin), (register_present _ p h Hin) in Hs.
  set (h1 := register (MediatorsOf p) M h) in *.
  assert (arr h1 (ObserversOf M) = arr h (ObserversOf M)) as Hobs1.
  { unfold h1. by rewrite arr_register_ne. }
  destruct (TSubscription_dispose_spec (ObserversOf M) p h1)
    as (ha & Hda & Hocca & Hframea & _).
  destruct (TSubscription_dispose_spec (MediatorsOf p) M ha)
    as (h2 & Hdb & Hoccb & Hframeb & _).
  exists h1, h2. split; [exact Hs |]. split; [| split; [| split; [| split; [| split]]]].
  - simpl. apply andb_false_intro1.
    destruct (TSubscription_isDisposed (ObserversOf M) p h1) eqn:E; [| done].
    apply TSubscription_isDisposed_empty in E. rewrite Hobs1 in E.
    rewrite E in Hin. by apply not_elem_of_nil in Hin.
  - simpl. unfold bind. by rewrite Hda.
  - rewrite Hframeb by done. apply occurrences_0.
    rewrite Hocca, decide_True, Hobs1 by done. lia.
  - apply occurrences_0. rewrite Hoccb, decide_True by done.
    rewrite Hframea by done. unfold h1.
    rewrite occurrences_register, decide_True by done. lia.
  - intros a Ha1 Ha2. rewrite Hframeb, Hframea by congruence.
    unfold h1. by rewrite arr_register_ne by congruence.
  - simpl. rewrite andb_true_iff, !TSubscription_isDisposed_empty. done.
Qed.

End Linking.

(** X16 at work: participant [3] and mediator [0] on the empty heap. *)
Lemma subscribe_links_both_ways_witness :
  (exists d h1,
     TBaseMediator_subscribe cast 4 0 3 empty_heap = Ret d h1 /\
     3 ∈ arr h1 (ObserversOf 0) /\ 0 ∈ arr h1 (MediatorsOf 3)) /\
  (exists h1,
     TAbstractParticipant_subscribe cast 3 3 0 empty_heap
     = Ret (TSubscription (MediatorsOf 3) 0) h1 /\
     3 ∈ arr h1 (ObserversOf 0) /\ 0 ∈ arr h1 (MediatorsOf 3)).
Proof.
  destruct (subscribe_links_both_ways cast 0 0 3 empty_heap ["A"] 30 eq_refl)
    as ((d & h1 & Hs & Hp & HM & _) & Hfresh & _).
  split.
  - by exists d, h1.
  - destruct Hfresh as (h2 & Hs2 & Hp2 & HM2 & _).
    + apply includes_false. reflexivity.
    + by exists h2.
Defined.

(** X17 at work: participant [3] is registered with mediator [0] and
    subscribed again. *)
Lemma composite_dispose_unlinks_both_witness :
  let h := after (TBaseMediator_subscribe cast 4 0 3) in
  let c := Composite (TSubscription (ObserversOf 0) 3) (TSubscription (MediatorsOf 3) 0) in
  exists h1 h2,
    TBaseMediator_subscribe cast 4 0 3 h = Ret c h1 /\
    isDisposed c h1 = false /\
    dispose c h1 = Ret tt h2 /\
    (3 ∉ arr h2 (ObserversOf 0)) /\
    (0 ∉ arr h2 (MediatorsOf 3)) /\
    (forall a, a <> ObserversOf 0 -> a <> MediatorsOf 3 -> arr h2 a = arr h a) /\
    (isDisposed c h2 = true
     <-> arr h2 (ObserversOf 0) = [] /\ arr h2 (MediatorsOf 3) = []).
Proof.
  apply (composite_dispose_unlinks_both cast 0 0 3
           (after (TBaseMediator_subscribe cast 4 0 3)) ["A"] 30).
  - reflexivity.
  - apply includes_true. reflexivity.
  - vm_compute. lia.
  - vm_compute. lia.
Defined.

(** ** What a participant publishes *)

Lemma silent_quiet_everywhere {T} o (v : T) : quiet_everywhere (on_next silent o v).
Proof. intros h. by exists tt, h. Qed.

Section Relaying.
Context {Payload : Type} (cls : ObjId -> Class) (cb : Callbacks (Topic * Payload)).
Implicit Types (s : State (Topic * Payload)).

Lemma quiet_everywhere_on {A} a (c : Comp Heap A) : quiet_everywhere c -> quiet_on a c.
Proof. intros Hq h. destruct (Hq h) as (r & h' & Hc & Ha). by exists r, h'. Qed.

Lemma relayed_same_arrays sender (message : Topic * Payload) h h' m :
  (forall a, arr h' a = arr h a) ->
  relayed cls sender message h' m = relayed cls sender message h m.
Proof. intros Ha. unfold relayed. by rewrite Ha. Qed.

(** With callbacks that leave every array alone, [next] does too. *)
Lemma mediator_next_quiet_everywhere m sender topic payload s :
  (forall o v, quiet_everywhere (on_next cb o v)) ->
  exists s',
    TBaseMediator_next cls cb m (sender, topic, payload) s = Ret tt s' /\
    trace s' = trace s ++ ((fun o => CallNext o (topic, payload))
                             <$> filter (eligible cls sender topic)
                                   (arr (heap s) (ObserversOf m))) /\
    forall a, arr (heap s') a = arr (heap s) a.
Proof.
  intros Hq.
  destruct (mediator_next_quiet cls cb m sender topic payload s)
    as (s' & evs & Hs' & Htr & -> & _).
  { intros o _ _. apply quiet_everywhere_on, Hq. }
  exists s'. split; [done |]. split; [done |].
  assert (final (TBaseMediator_next cls cb m (sender, topic, payload) s) = Some s')
    as Hfinal by by rewrite Hs'.
  unfold TBaseMediator_next, forEach in Hfinal.
  pose (I := fun s1 : State (Topic * Payload) =>
    forall a, arr (heap s1) a = arr (heap s) a).
  refine (forEach_from_invariant I _ _ _ _ _ _ _ _ Hfinal); [| done].
  intros i o s1 s2 HI _. rewrite route_guarded.
  destruct (decide (eligible cls sender topic o)); [| by intros [= <-]].
  intros [_ Hh]%invoke_final a.
  destruct (Hq o (topic, payload) (heap s1)) as ([] & h' & Hc & Ha).
  rewrite Hc in Hh. injection Hh as <-. by rewrite Ha.
Qed.


(** X19: with callbacks that return and leave every array alone,
    [participant.publish(message)] calls [next] on each tracked
    mediator in the order of the list, and each mediator calls, in the
    order of its collection, the receivers that the routing rule
    selects for that sender and topic.  A participant that tracks no
    mediator publishes to no one. *)
Theorem participant_publish_relays p topics participantId message s :
  cls p = CParticipant topics participantId ->
  (forall o v, quiet_everywhere (on_next cb o v)) ->
  exists s',
    TAbstractParticipant_publish cls cb p message s = Ret tt s' /\
    trace s' = trace s ++ concat (relayed cls participantId message (heap s)
                                    <$> arr (heap s) (MediatorsOf p)) /\
    (forall a, arr (heap s') a = arr (heap s) a) /\
    (arr (heap s) (MediatorsOf p) = [] -> s' = s).
Proof.
  intros Hp Hq. unfold TAbstractParticipant_publish. rewrite Hp. simpl.
  set (body := fun mediator : ObjId =>
    record (CallIntake mediator participantId message) ;;;
    TBaseMediator_next cls cb mediator (participantId, message.1, message.2)).
  assert (forall m s0, exists s1,
            body m s0 = Ret tt s1 /\
            trace s1 = trace s0 ++ relayed cls participantId message (heap s0) m /\
            forall a, arr (heap s1) a = arr (heap s0) a) as Hstep.
  { intros m s0. unfold body, bind, record.
    destruct (mediator_next_quiet_everywhere m participantId message.1 message.2
                (mkState (heap s0) (trace s0 ++ [CallIntake m participantId message]))
                Hq) as (s1 & Hs1 & Htr & Ha).
    exists s1. split; [done |]. split; [| done].
    rewrite Htr. simpl. unfold relayed. rewrite <- app_assoc. simpl.
    by destruct message. }
  rewrite forEach_each.
  - assert (forall xs s0, exists s1,
              each body xs s0 = Ret tt s1 /\
              trace s1 = trace s0
                         ++ concat (relayed cls participantId message (heap s0) <$> xs) /\
              forall a, arr (heap s1) a = arr (heap s0) a) as Heach.
    { induction xs as [|m xs IH]; intros s0.
      - exists s0. rewrite fmap_nil. simpl. by rewrite app_nil_r.
      - cbn [each]. unfold bind at 1.
        destruct (Hstep m s0) as (s1 & -> & Htr1 & Ha1).
        destruct (IH s1) as (s2 & Hs2 & Htr2 & Ha2).
        exists s2. split; [done |]. split.
        + assert (relayed cls participantId message (heap s1) <$> xs
                  = relayed cls participantId message (heap s0) <$> xs) as Hext.
          { apply list_fmap_ext. intros i m' _. by apply relayed_same_arrays. }
          rewrite Htr2, Htr1, Hext, fmap_cons, concat_cons.
          by rewrite <- app_assoc.
        + intros a. by rewrite Ha2, Ha1. }
    destruct (Heach (arr (heap s) (MediatorsOf p)) s) as (s' & Hs' & Htr & Ha).
    exists s'. split; [done |]. split; [done |]. split; [done |].
    intros Hempty. rewrite Hempty in Hs'. simpl in Hs'. by injection Hs' as <-.
  - intros m _ s0. destruct (Hstep m s0) as (s1 & Hs1 & _ & Ha). by exists s1.
Qed.

End Relaying.


(** X19 at work: participant [3] of the four receivers of mediator [0]
    publishes on topic A. *)
Lemma participant_publish_relays_witness :
  exists s',
    TAbstractParticipant_publish cast silent 3 ("A", 7)
      (mkState (after four_receivers) []) = Ret tt s' /\
    trace s' = [] ++ concat (relayed cast 30 ("A", 7) (after four_receivers)
                               <$> arr (after four_receivers) (MediatorsOf 3)) /\
    (forall a, arr (heap s') a = arr (after four_receivers) a) /\
    (arr (after four_receivers) (MediatorsOf 3) = [] ->
     s' = mkState (after four_receivers) []).
Proof.
  apply (participant_publish_relays cast silent 3 ["A"] 30 ("A", 7)
           (mkState (after four_receivers) [])).
  - reflexivity.
  - intros o v. apply silent_quiet_everywhere.
Defined.

(** The calls of the last example, spelled out. *)
Example participant_publish_relays_trace :
  concat (relayed cast 30 ("A", 7) (after four_receivers)
            <$> arr (after four_receivers) (MediatorsOf 3))
  = [CallIntake 0 30 ("A", 7);
     CallNext 1 ("A", 7); CallNext 2 ("A", 7); CallNext 4 ("A", 7)].
Proof. vm_compute. reflexivity. Qed.

(** ** Receivers without [publish] at a mediator *)

Section PlainReceivers.
Context {Payload : Type} (cls : ObjId -> Class) (cb : Callbacks (Topic * Payload)).
Implicit Types (s : State (Topic * Payload)).

(** A receiver that is not in the mediator's collection, and that no
    callback puts there, is not called by [next]. *)
Lemma mediator_next_not_registered M value r s s' :
  (forall o v, keeps_out (ObserversOf M) r (on_next cb o v)) ->
  r ∉ arr (heap s) (ObserversOf M) ->
  final (TBaseMediator_next cls cb M value s) = Some s' ->
  next_calls r (trace s') = next_calls r (trace s).
Proof.
  intros Hkeep Hout. destruct value as [[sender topic] payload].
  unfold TBaseMediator_next, forEach. intros Hfinal.
  pose (I := fun s1 : State (Topic * Payload) =>
    next_calls r (trace s1) = next_calls r (trace s) /\
    r ∉ arr (heap s1) (ObserversOf M)).
  assert (I s') as [? _]; [| done].
  refine (forEach_from_invariant I _ _ _ _ _ _ _ _ Hfinal); [| by split].
  intros i o s1 s2 [Hn Hout1] Ho. rewrite route_guarded.
  destruct (decide (eligible cls sender topic o)); [| by intros [= <-]].
  intros [Htr Hh]%invoke_final. split.
  - rewrite Htr, next_calls_app, Hn. simpl.
    rewrite decide_False; [lia |]. intros ->.
    apply Hout1. by eapply list_elem_of_lookup_2.
  - by eapply Hkeep.
Qed.

(** X20: at a mediator an observer or a subscriber has one
    registration, however often it is subscribed.  The second
    [subscribe] changes nothing and returns an equal subscription;
    disposing either one unregisters the receiver, after which the
    other [dispose()] does nothing and [next] no longer calls the
    receiver, as long as no callback registers it again.  The
    collection is taken to hold the receiver at most once beforehand,
    which the mediator layer maintains. *)
Theorem mediator_subscriptions_share_one_registration fuel M r h :
  has_subscribe_and_publish (cls r) = false ->
  occurrences r (arr h (ObserversOf M)) <= 1 ->
  let d := TSubscription (ObserversOf M) r in
  exists h1 h2,
    TBaseMediator_subscribe cls (S fuel) M r h = Ret d h1 /\
    TBaseMediator_subscribe cls (S fuel) M r h1 = Ret d h1 /\
    dispose d h1 = Ret tt h2 /\
    (r ∉ arr h2 (ObserversOf M)) /\
    dispose d h2 = Ret tt h2 /\
    (r ∉ arr h (ObserversOf M) -> arr h2 (ObserversOf M) = arr h (ObserversOf M)) /\
    forall value tr s',
      (forall o v, keeps_out (ObserversOf M) r (on_next cb o v)) ->
      final (TBaseMediator_next cls cb M value (mkState h2 tr)) = Some s' ->
      next_calls r (trace s') = next_calls r tr.
Proof.
  intros Hplain Hocc d. set (a := ObserversOf M) in *.
  set (h1 := register a r h).
  assert (r ∈ arr h1 a) as Hin by apply register_elem_of.
  destruct (TSubscription_dispose_spec a r h1) as (h2 & Hd & Hocc2 & _).
  assert (r ∉ arr h2 a) as Hgone.
  { apply occurrences_0. rewrite Hocc2, decide_True by done.
    unfold h1. rewrite occurrences_register, decide_True by done. lia. }
  exists h1, h2. split; [by apply mediator_subscribe_plain |].
  split; [| split; [exact Hd | split; [exact Hgone | split; [| split]]]].
  - rewrite mediator_subscribe_plain by done. fold a. by rewrite register_present.
  - by apply TSubscription_dispose_absent.
  - intros Hout.
    destruct (TSubscription_dispose_present a r h1 Hin) as (j & Hj & Hd').
    simpl in Hd. rewrite Hd in Hd'. injection Hd' as ->. rewrite arr_set_arr.
    unfold h1 in *. rewrite arr_register, (proj2 (includes_false r _) Hout) in *.
    rewrite (indexOf_push_absent r _ Hout) in Hj. injection Hj as <-.
    apply splice1_last.
  - intros value tr s' Hkeep Hfinal.
    by apply (mediator_next_not_registered M value r (mkState h2 tr) s').
Qed.

End PlainReceivers.

(** X20 at work: subscriber [2] at mediator [0]. *)
Lemma mediator_subscriptions_share_one_registration_witness :
  let d := TSubscription (ObserversOf 0) 2 in
  exists h1 h2,
    TBaseMediator_subscribe cast 1 0 2 empty_heap = Ret d h1 /\
    TBaseMediator_subscribe cast 1 0 2 h1 = Ret d h1 /\
    dispose d h1 = Ret tt h2 /\
    (2 ∉ arr h2 (ObserversOf 0)) /\
    dispose d h2 = Ret tt h2 /\
    (2 ∉ arr empty_heap (ObserversOf 0) ->
     arr h2 (ObserversOf 0) = arr empty_heap (ObserversOf 0)) /\
    forall (value : symbol * Topic * nat) tr s',
      (forall o (v : Topic * nat), keeps_out (ObserversOf 0) 2 (on_next silent o v)) ->
      final (TBaseMediator_next cast silent 0 value (mkState h2 tr)) = Some s' ->
      next_calls 2 (trace s') = next_calls 2 tr.
Proof.
  apply (mediator_subscriptions_share_one_registration cast silent 0 0 2 empty_heap).
  - reflexivity.
  - vm_compute. lia.
Defined.
